(** * GoCubes: the cube state engine and the layer solver

    A shallow embedding of [CubeModel] (static/js/cube_model.js, the tail of
    cube3d.js), of [CubeSolverJS] (static/js/solver_logic.js) and of the
    worker entry point (static/js/solver_worker.js), with the properties
    the specification states about them. *)

From Stdlib Require Import Ascii.
From stdpp Require Import base list strings.
From Equations Require Import Equations.

Local Open Scope string_scope.
Local Open Scope list_scope.

(** ** JavaScript values held in a face array

    A facelet is a colour code, a JavaScript string.  Reading an array past
    its end yields [undefined], and [JSON.stringify] turns an [undefined]
    array entry into [null]; both are values here so that the engine is
    defined on every array, not only on the nine-entry ones. *)

Inductive jsval : Type :=
  | JUndefined
  | JNull
  | JString (c : string).

#[global] Instance jsval_eq_dec : EqDecision jsval.
Proof. solve_decision. Defined.

(** [a === b] and [a !== b] on such values. *)
Definition strict_eq (a b : jsval) : bool := bool_decide (a = b).
Definition strict_ne (a b : jsval) : bool := negb (strict_eq a b).

Infix "===" := strict_eq (at level 70, no associativity).
Infix "!==" := strict_ne (at level 70, no associativity).

(** ** Arrays *)

Abbreviation face := (list jsval).

(** [a[i]] as an expression: [undefined] out of range. *)
Definition get (a : face) (i : nat) : jsval := default JUndefined (a !! i).

(** [a[i] = v]: in range the entry is overwritten, out of range the array
    grows up to index [i] (the entries in between read as [undefined]). *)
Definition set (a : face) (i : nat) (v : jsval) : face :=
  if decide (i < length a) then <[i := v]> a
  else a ++ replicate (i - length a) JUndefined ++ [v].

(** ** CubeState: the object with the six face arrays *)

Inductive FaceName := up | down | front | back | left | right.

#[global] Instance FaceName_eq_dec : EqDecision FaceName.
Proof. solve_decision. Defined.

Record CubeState : Type := mkCube {
  f_up : face; f_down : face; f_front : face;
  f_back : face; f_left : face; f_right : face
}.

(** [Object.keys(state)] for a state built as [solvedState] is. *)
Definition faceNames : list FaceName := [up; down; front; back; left; right].

(** [state[name]] *)
Definition faceOf (s : CubeState) (n : FaceName) : face :=
  match n with
  | up => f_up s | down => f_down s | front => f_front s
  | back => f_back s | left => f_left s | right => f_right s
  end.

(** The state after the array [state[name]] has been mutated into [a]. *)
Definition withFace (s : CubeState) (n : FaceName) (a : face) : CubeState :=
  match n with
  | up => mkCube a (f_down s) (f_front s) (f_back s) (f_left s) (f_right s)
  | down => mkCube (f_up s) a (f_front s) (f_back s) (f_left s) (f_right s)
  | front => mkCube (f_up s) (f_down s) a (f_back s) (f_left s) (f_right s)
  | back => mkCube (f_up s) (f_down s) (f_front s) a (f_left s) (f_right s)
  | left => mkCube (f_up s) (f_down s) (f_front s) (f_back s) a (f_right s)
  | right => mkCube (f_up s) (f_down s) (f_front s) (f_back s) (f_left s) a
  end.

(** [s.name[i]] and [s.name[i] = v] *)
Definition facelet (s : CubeState) (n : FaceName) (i : nat) : jsval :=
  get (faceOf s n) i.

Definition setFacelet (s : CubeState) (n : FaceName) (i : nat) (v : jsval)
  : CubeState :=
  withFace s n (set (faceOf s n) i v).

Notation "s .[ n , i ]" := (facelet s n i)
  (at level 1, left associativity, format "s .[ n ,  i ]").

(** A CubeState of the data model: nine entries on every face. *)
Definition nine (s : CubeState) : Prop :=
  Forall (fun n => length (faceOf s n) = 9) faceNames.

(** ** CubeModel *)

(** [Array(9).fill(c)] *)
Definition filled (c : string) : face := replicate 9 (JString c).

Definition solvedState : CubeState :=
  {| f_up := filled "W"; f_down := filled "Y"; f_front := filled "R";
     f_back := filled "O"; f_left := filled "G"; f_right := filled "B" |}.

(** [JSON.parse(JSON.stringify(state))]: equal arrays in a new object,
    except that an [undefined] entry comes back as [null]. *)
Definition jsonValue (v : jsval) : jsval :=
  match v with JUndefined => JNull | _ => v end.

Definition jsonCopy (s : CubeState) : CubeState :=
  {| f_up := jsonValue <$> f_up s; f_down := jsonValue <$> f_down s;
     f_front := jsonValue <$> f_front s; f_back := jsonValue <$> f_back s;
     f_left := jsonValue <$> f_left s; f_right := jsonValue <$> f_right s |}.

(** [_rotateFace(face, clockwise)]: [temp] is a copy of the array, then
    [faceState[i] = temp[mapping[i]]] for [i] from 0 to 8. *)
Definition cwMapping : list nat := [2; 5; 8; 1; 4; 7; 0; 3; 6].
Definition ccwMapping : list nat := [6; 3; 0; 7; 4; 1; 8; 5; 2].

Definition rotateCells (mapping : list nat) (faceState : face) : face :=
  let temp := faceState in
  foldl (fun a i => set a i (get temp (mapping !!! i))) faceState (seq 0 9).

Definition rotateFace (n : FaceName) (clockwise : bool) (s : CubeState)
  : CubeState :=
  withFace s n
    (rotateCells (if clockwise then cwMapping else ccwMapping) (faceOf s n)).

(** One assignment [s.a[i] = s.b[j]] of the adjacency cycles, reading the
    state as it is at that point. *)
Definition assign (dst : FaceName * nat) (src : FaceName * nat)
    (s : CubeState) : CubeState :=
  setFacelet s dst.1 dst.2 (facelet s src.1 src.2).

(** [s.a[i] = temp[k]] *)
Definition store (dst : FaceName * nat) (v : jsval) (s : CubeState)
  : CubeState :=
  setFacelet s dst.1 dst.2 v.

(** Statements in sequence. *)
Definition run (stmts : list (CubeState -> CubeState)) (s : CubeState)
  : CubeState :=
  foldl (fun acc f => f acc) s stmts.

(** [_performMove(face)]: the bodies of the six cases of the [switch]. *)
Definition caseF (s0 : CubeState) : CubeState :=
    let s := rotateFace front true s0 in
    let temp := [s.[up, 6]; s.[up, 7]; s.[up, 8]] in
    run [ assign (up, 6) (left, 8); assign (up, 7) (left, 5);
          assign (up, 8) (left, 2);
          assign (left, 2) (down, 0); assign (left, 5) (down, 1);
          assign (left, 8) (down, 2);
          assign (down, 0) (right, 6); assign (down, 1) (right, 3);
          assign (down, 2) (right, 0);
          store (right, 0) (get temp 0); store (right, 3) (get temp 1);
          store (right, 6) (get temp 2) ] s.

Definition caseB (s0 : CubeState) : CubeState :=
    let s := rotateFace back true s0 in
    let temp := [s.[up, 0]; s.[up, 1]; s.[up, 2]] in
    run [ assign (up, 0) (right, 2); assign (up, 1) (right, 5);
          assign (up, 2) (right, 8);
          assign (right, 2) (down, 8); assign (right, 5) (down, 7);
          assign (right, 8) (down, 6);
          assign (down, 6) (left, 0); assign (down, 7) (left, 3);
          assign (down, 8) (left, 6);
          store (left, 0) (get temp 2); store (left, 3) (get temp 1);
          store (left, 6) (get temp 0) ] s.

Definition caseU (s0 : CubeState) : CubeState :=
    let s := rotateFace up true s0 in
    let temp := [s.[front, 0]; s.[front, 1]; s.[front, 2]] in
    let s :=
      let rhs := [s.[right, 0]; s.[right, 1]; s.[right, 2]] in
      run [ store (front, 0) (get rhs 0); store (front, 1) (get rhs 1);
            store (front, 2) (get rhs 2) ] s in
    let s :=
      let rhs := [s.[back, 0]; s.[back, 1]; s.[back, 2]] in
      run [ store (right, 0) (get rhs 0); store (right, 1) (get rhs 1);
            store (right, 2) (get rhs 2) ] s in
    let s :=
      let rhs := [s.[left, 0]; s.[left, 1]; s.[left, 2]] in
      run [ store (back, 0) (get rhs 0); store (back, 1) (get rhs 1);
            store (back, 2) (get rhs 2) ] s in
    run [ store (left, 0) (get temp 0); store (left, 1) (get temp 1);
          store (left, 2) (get temp 2) ] s.

Definition caseD (s0 : CubeState) : CubeState :=
    let s := rotateFace down true s0 in
    let temp := [s.[front, 6]; s.[front, 7]; s.[front, 8]] in
    let s :=
      let rhs := [s.[left, 6]; s.[left, 7]; s.[left, 8]] in
      run [ store (front, 6) (get rhs 0); store (front, 7) (get rhs 1);
            store (front, 8) (get rhs 2) ] s in
    let s :=
      let rhs := [s.[back, 6]; s.[back, 7]; s.[back, 8]] in
      run [ store (left, 6) (get rhs 0); store (left, 7) (get rhs 1);
            store (left, 8) (get rhs 2) ] s in
    let s :=
      let rhs := [s.[right, 6]; s.[right, 7]; s.[right, 8]] in
      run [ store (back, 6) (get rhs 0); store (back, 7) (get rhs 1);
            store (back, 8) (get rhs 2) ] s in
    run [ store (right, 6) (get temp 0); store (right, 7) (get temp 1);
          store (right, 8) (get temp 2) ] s.

Definition caseL (s0 : CubeState) : CubeState :=
    let s := rotateFace left true s0 in
    let temp := [s.[up, 0]; s.[up, 3]; s.[up, 6]] in
    run [ assign (up, 0) (back, 8); assign (up, 3) (back, 5);
          assign (up, 6) (back, 2);
          assign (back, 2) (down, 6); assign (back, 5) (down, 3);
          assign (back, 8) (down, 0);
          assign (down, 0) (front, 0); assign (down, 3) (front, 3);
          assign (down, 6) (front, 6);
          store (front, 0) (get temp 0); store (front, 3) (get temp 1);
          store (front, 6) (get temp 2) ] s.

Definition caseR (s0 : CubeState) : CubeState :=
    let s := rotateFace right true s0 in
    let temp := [s.[up, 2]; s.[up, 5]; s.[up, 8]] in
    run [ assign (up, 2) (front, 2); assign (up, 5) (front, 5);
          assign (up, 8) (front, 8);
          assign (front, 2) (down, 2); assign (front, 5) (down, 5);
          assign (front, 8) (down, 8);
          assign (down, 2) (back, 6); assign (down, 5) (back, 3);
          assign (down, 8) (back, 0);
          store (back, 0) (get temp 2); store (back, 3) (get temp 1);
          store (back, 6) (get temp 0) ] s.

(** [_performMove(face)]: the [switch] has these six cases and no default. *)
Definition performMove (mv : string) (s : CubeState) : CubeState :=
  if String.eqb mv "F" then caseF s
  else if String.eqb mv "B" then caseB s
  else if String.eqb mv "U" then caseU s
  else if String.eqb mv "D" then caseD s
  else if String.eqb mv "L" then caseL s
  else if String.eqb mv "R" then caseR s
  else s.

(** [_move(face, prime, double)] *)
Definition move (mv : string) (prime double : bool) (s : CubeState)
  : CubeState :=
  let cycles := if double then 2 else if prime then 3 else 1 in
  Nat.iter cycles (performMove mv) s.

(** ** Algorithm strings *)

(** [str.split(' ')] *)
Fixpoint split_space (str : string) : list string :=
  match str with
  | EmptyString => [EmptyString]
  | String c rest =>
      if Ascii.eqb c " "%char then EmptyString :: split_space rest
      else match split_space rest with
           | w :: ws => String c w :: ws
           | [] => [String c EmptyString]
           end
  end.

(** [algorithm.split(' ').filter(m => m)]: the empty string is falsy. *)
Definition nonEmpty (m : string) : bool :=
  match m with EmptyString => false | String _ _ => true end.

Definition tokens (algorithm : string) : list string :=
  List.filter nonEmpty (split_space algorithm).

(** [c.toUpperCase()] on one character.  Strings here are sequences of
    ASCII characters; outside ASCII no character upper-cases to one of the
    six face letters, so nothing the [switch] can see is lost. *)
Definition toUpperCase (c : Ascii.ascii) : Ascii.ascii :=
  let n := Ascii.nat_of_ascii c in
  if ((97 <=? n) && (n <=? 122))%nat then Ascii.ascii_of_nat (n - 32) else c.

(** [move.includes(ch)] for a one-character [ch] *)
Fixpoint includes (m : string) (ch : Ascii.ascii) : bool :=
  match m with
  | EmptyString => false
  | String c rest => Ascii.eqb c ch || includes rest ch
  end.

(** One iteration of the [forEach] of [executeAlgorithm].  A token is never
    empty there (the filter removed those). *)
Definition executeMove (mv : string) (s : CubeState) : CubeState :=
  match mv with
  | EmptyString => s
  | String c _ =>
      let face := String (toUpperCase c) EmptyString in
      let prime := includes mv "'"%char in
      let double := includes mv "2"%char in
      move face prime double s
  end.

(** [executeAlgorithm(algorithm)] *)
Definition executeAlgorithm (algorithm : string) (s : CubeState) : CubeState :=
  foldl (fun acc mv => executeMove mv acc) s (tokens algorithm).

(** [moves.join(' ')] *)
Definition join (moves : list string) : string := String.concat " " moves.

(** ** The object store

    State objects live in a store, in allocation order; a [CubeModel] holds
    a reference to its state object in its [state] field, and the engine
    mutates the arrays of that object in place.  Two models whose [state]
    fields hold the same reference share every mutation. *)

Abbreviation loc := nat (only parsing).
Abbreviation heap := (list CubeState).

#[global] Instance CubeState_inhabited : Inhabited CubeState :=
  populate (mkCube [] [] [] [] [] []).

Definition alloc (h : heap) (s : CubeState) : heap * loc :=
  (h ++ [s], length h).

Record CubeModel : Type := { state : loc }.

(** [new CubeModel()]: the constructor builds [this.solvedState] and
    [reset()] points [this.state] at a JSON copy of it. *)
Definition newCubeModel (h : heap) : heap * CubeModel :=
  let (h1, solved) := alloc h solvedState in
  let (h2, st) := alloc h1 (jsonCopy (h1 !!! solved)) in
  (h2, {| state := st |}).

(** [model.executeAlgorithm(algorithm)], in place on the state object. *)
Definition CubeModel_executeAlgorithm (model : CubeModel) (algorithm : string)
    (h : heap) : heap :=
  <[state model := executeAlgorithm algorithm (h !!! state model)]> h.

(** ** CubeSolverJS *)

(** The store together with the fields of [this]. *)
Record world : Type := {
  objects : heap;
  this_cube : CubeModel;
  this_solution : list string
}.

(** [this.cube.state] as it is now. *)
Definition cur (w : world) : CubeState := objects w !!! state (this_cube w).

(** The constructor: a new model whose [state] is then replaced by a JSON
    copy of the caller's state. *)
Definition newCubeSolverJS (h : heap) (cubeModel : CubeModel) : world :=
  let (h1, _) := newCubeModel h in
  let (h2, st) := alloc h1 (jsonCopy (h1 !!! state cubeModel)) in
  {| objects := h2; this_cube := {| state := st |}; this_solution := [] |}.

(** Methods run on the world.  The [while] loops of the phases carry no
    bound of their own, so they are run on fuel; [OutOfFuel] is a loop
    that was still going when the fuel ran out. *)
Inductive result (A : Type) : Type :=
  | Done (a : A)
  | OutOfFuel.
Arguments Done {A} a.
Arguments OutOfFuel {A}.

Definition M (A : Type) : Type := world -> result A * world.

Definition ret {A} (a : A) : M A := fun w => (Done a, w).

Definition bind {A B} (m : M A) (k : A -> M B) : M B :=
  fun w => match m w with
           | (Done a, w') => k a w'
           | (OutOfFuel, w') => (OutOfFuel, w')
           end.

Notation "'let*' x := m 'in' k" := (bind m (fun x => k))
  (at level 10, x name, m at level 100, k at level 200).
Notation "m ;; k" := (bind m (fun _ => k))
  (at level 100, k at level 200, right associativity).

(** An expression over [this.cube.state]. *)
Definition test {A} (p : CubeState -> A) : M A := fun w => (Done (p (cur w)), w).

(** [if (c) a else b] on the current state *)
Definition ifM {A} (c : CubeState -> bool) (a b : M A) : M A :=
  fun w => if c (cur w) then a w else b w.

(** [execute(moves)] *)
Definition execute (moves : string) : M unit :=
  fun w =>
    (Done tt,
     {| objects := CubeModel_executeAlgorithm (this_cube w) moves (objects w);
        this_cube := this_cube w;
        this_solution := this_solution w ++ tokens moves |}).

(** [while (cond) body] *)
Fixpoint while (fuel : nat) (cond : M bool) (body : M unit) : M unit :=
  let* c := cond in
  if c then
    match fuel with
    | 0 => fun w => (OutOfFuel, w)
    | S n => body ;; while n cond body
    end
  else ret tt.

(** [for (let i = 0; i < n; i++) { if (cond) { onBreak; break; } body }];
    the result tells whether the loop was left by the [break]. *)
Fixpoint forBreak (n : nat) (cond : CubeState -> bool) (onBreak body : M unit)
  : M bool :=
  match n with
  | 0 => ret false
  | S k => ifM cond (onBreak ;; ret true) (body ;; forBreak k cond onBreak body)
  end.

(** [isSolved()] *)
Definition uniform (a : face) : bool :=
  let centerColor := get a 4 in
  forallb (fun c => c === centerColor) a.

Definition isSolved (s : CubeState) : bool :=
  forallb (fun n => uniform (faceOf s n)) faceNames.

Definition W := JString "W".
Definition Y := JString "Y".

(** *** Phase 1: [solveWhiteCross] *)

(** The twelve [{pos, pair}] entries of [edges]. *)
Definition edges : list ((FaceName * nat) * (FaceName * nat)) :=
  [ ((up, 1), (back, 1)); ((up, 3), (left, 1));
    ((up, 5), (right, 1)); ((up, 7), (front, 1));
    ((down, 1), (front, 7)); ((down, 3), (left, 7));
    ((down, 5), (right, 7)); ((down, 7), (back, 7));
    ((front, 3), (left, 5)); ((front, 5), (right, 3));
    ((back, 3), (right, 5)); ((back, 5), (left, 3)) ].

(** The inner [for (const edge of edges)]: is some edge the white/[color]
    pair, either way round? *)
Definition edgeFound (color : jsval) (s : CubeState) : bool :=
  existsb (fun edge : (FaceName * nat) * (FaceName * nat) =>
             let color1 := s.[edge.1.1, edge.1.2] in
             let color2 := s.[edge.2.1, edge.2.2] in
             ((color1 === W) && (color2 === color))
             || ((color2 === W) && (color1 === color)))
          edges.

(** [while (!found && attempts < 20)]: at most twenty rounds, each one a
    search and, when it fails, a [U]. *)
Definition crossSearch (color : jsval) : M bool :=
  forBreak 20 (edgeFound color) (ret tt) (execute "U").

(** [Object.entries(centers)] in insertion order; the face names of the
    entries are not used by the loop body. *)
Definition centers : list (string * FaceName) :=
  [("R", front); ("B", right); ("O", back); ("G", left)].

(** Statements of a [for ... of] or [forEach] over a list. *)
Fixpoint forEach {A} (l : list A) (body : A -> M unit) : M unit :=
  match l with
  | [] => ret tt
  | x :: rest => body x ;; forEach rest body
  end.

Definition solveWhiteCross : M unit :=
  forEach centers (fun entry =>
    crossSearch (JString entry.1) ;;
    execute "F2").

(** *** Phase 2: [solveWhiteCorners] *)

Definition cornersToSolve : list (string * string) :=
  [("R", "G"); ("B", "R"); ("O", "B"); ("G", "O")].

(** [arr.includes(v)] *)
Definition arr_includes (arr : list jsval) (v : jsval) : bool :=
  existsb (fun x => x === v) arr.

Definition slotMisplaced (frontColor leftColor : jsval) (s : CubeState) : bool :=
  (s.[front, 4] !== frontColor) || (s.[right, 4] !== leftColor).

Definition cornerOnTop (frontColor leftColor : jsval) (s : CubeState) : bool :=
  let u_colors := [s.[up, 8]; s.[front, 2]; s.[right, 0]] in
  arr_includes u_colors W && arr_includes u_colors frontColor
  && arr_includes u_colors leftColor.

Definition cornerNotInserted (frontColor : jsval) (s : CubeState) : bool :=
  (s.[down, 2] !== W) || (s.[front, 8] !== frontColor).

Definition solveCorner (fuel : nat) (corner : string * string) : M unit :=
  let frontColor := JString corner.1 in
  let leftColor := JString corner.2 in
  while fuel (test (slotMisplaced frontColor leftColor)) (execute "y") ;;
  forBreak 5 (cornerOnTop frontColor leftColor) (ret tt) (execute "U") ;;
  while fuel (test (cornerNotInserted frontColor)) (execute "R' D' R D").

Definition solveWhiteCorners (fuel : nat) : M unit :=
  forEach cornersToSolve (solveCorner fuel).

(** *** Phase 3: [solveMiddleLayer] *)

Definition middleEdges : list (FaceName * nat) :=
  [ (front, 3); (front, 5); (right, 3); (right, 5);
    (back, 3); (back, 5); (left, 3); (left, 5) ].

Definition middleSolved (s : CubeState) : bool :=
  forallb (fun e : FaceName * nat => s.[e.1, e.2] === s.[e.1, 4]) middleEdges.

Definition topEdgeUsable (s : CubeState) : bool :=
  (s.[up, 7] !== Y) && (s.[front, 1] !== Y).

Definition frontRightWrong (s : CubeState) : bool :=
  (s.[front, 5] !== s.[front, 4]) || (s.[right, 3] !== s.[right, 4]).

Definition frontEdgeUnaligned (s : CubeState) : bool :=
  s.[front, 1] !== s.[front, 4].

Definition rightAlg : string := "U R U' R' U' F' U F".
Definition leftAlg : string := "U' L' U L U F U' F'".

(** The [for (let i = 0; i < maxAttempts; i++)] loop, [n] rounds left;
    [return] leaves the loop, [continue] goes to the next round. *)
Fixpoint middleLoop (fuel n : nat) : M unit :=
  match n with
  | 0 => ret tt
  | S k =>
      ifM middleSolved (ret tt)
        (let* edgeFound := forBreak 4 topEdgeUsable (ret tt) (execute "U") in
         let insert :=
           while fuel (test frontEdgeUnaligned) (execute "U") ;;
           ifM (fun s => s.[up, 7] === s.[right, 4])
               (execute rightAlg) (execute leftAlg) ;;
           middleLoop fuel k in
         if edgeFound then insert
         else ifM frontRightWrong
                (execute rightAlg ;; middleLoop fuel k)
                (execute "y" ;; insert))
  end.

Definition solveMiddleLayer (fuel : nat) : M unit := middleLoop fuel 12.

(** *** Phase 4: [solveYellowCross] *)

Definition isUp (idx : nat) (s : CubeState) : bool := s.[up, idx] === Y.

Definition crossAlg : string := "F R U R' U' F'".

Definition solveYellowCross : M unit :=
  let* yellowCount :=
    test (fun s => length (List.filter (fun b : bool => b)
                             [isUp 1 s; isUp 3 s; isUp 5 s; isUp 7 s])) in
  if decide (yellowCount = 4) then ret tt
  else
    (if decide (yellowCount = 0) then execute crossAlg else ret tt) ;;
    forBreak 4 (fun s => isUp 3 s && isUp 7 s) (execute crossAlg) (execute "U") ;;
    forBreak 2 (fun s => isUp 3 s && isUp 5 s) (execute crossAlg) (execute "U") ;;
    ret tt.

(** *** Phase 5: [positionYellowEdges] *)

Definition edgesAlg : string := "R U R' U R U2 R'".

Definition frontEdgeAligned (s : CubeState) : bool :=
  s.[front, 1] === s.[front, 4].

(** [for (let j = 0; j < 4; j++) { if (...) correctCount++; execute('y'); }] *)
Fixpoint countAligned (n correctCount : nat) : M nat :=
  match n with
  | 0 => ret correctCount
  | S k =>
      let* ok := test frontEdgeAligned in
      execute "y" ;;
      countAligned k (if ok then S correctCount else correctCount)
  end.

Fixpoint edgesLoop (fuel n : nat) : M unit :=
  match n with
  | 0 => ret tt
  | S k =>
      let* correctCount := countAligned 4 0 in
      if decide (correctCount = 4) then ret tt
      else
        while fuel (test (fun s => s.[back, 1] !== s.[back, 4])) (execute "y") ;;
        execute edgesAlg ;;
        edgesLoop fuel k
  end.

Definition positionYellowEdges (fuel : nat) : M unit :=
  forBreak 4 frontEdgeAligned (ret tt) (execute "U") ;;
  edgesLoop fuel 5.

(** *** Phase 6: [positionYellowCorners] *)

Definition cornersAlg : string := "U R U' L' U R' U' L".

(** [new Set(values).size] and [set.has(x)] *)
Definition setOf (values : list jsval) : list jsval := remove_dups values.

Definition cornerMatches (s : CubeState) : bool :=
  let expected := setOf [s.[front, 4]; s.[right, 4]; Y] in
  let actual := setOf [s.[front, 2]; s.[right, 0]; s.[up, 8]] in
  if negb (bool_decide (length expected = 3))
     || negb (bool_decide (length actual = 3)) then false
  else
    let diff := setOf (List.filter (fun x => negb (arr_includes actual x))
                         expected) in
    bool_decide (length diff = 0).

(** [areCornersPositioned()]: it turns the cube with [y] between its four
    checks, so it writes to the solution log as well. *)
Fixpoint cornersCheck (n : nat) : M bool :=
  match n with
  | 0 => ret true
  | S k => ifM cornerMatches (execute "y" ;; cornersCheck k) (ret false)
  end.

Definition areCornersPositioned : M bool := cornersCheck 4.

Definition positionYellowCorners (fuel : nat) : M unit :=
  while fuel (let* ok := areCornersPositioned in ret (negb ok))
             (execute cornersAlg).

(** *** Phase 7: [orientYellowCorners] *)

Definition orientAlg : string := "R' D' R D".

(** [for (let i = 0; i < 4; i++) { execute(alg); if (...) break; }] *)
Fixpoint orientReps (n : nat) : M unit :=
  match n with
  | 0 => ret tt
  | S k => execute orientAlg ;;
           ifM (fun s => s.[up, 8] === Y) (ret tt) (orientReps k)
  end.

Definition topNotYellow (s : CubeState) : bool :=
  negb (bool_decide
          (length (List.filter (fun c => c === Y) (faceOf s up)) = 9)).

Definition orientYellowCorners (fuel : nat) : M unit :=
  while fuel (test topNotYellow)
    (ifM (fun s => s.[up, 8] !== Y) (orientReps 4) (ret tt) ;;
     execute "U").

(** *** Phase 8: [alignTopFace] *)

Definition alignTopFace (fuel : nat) : M unit :=
  while fuel (test frontEdgeUnaligned) (execute "U").

(** *** [simplifyMoves] *)

(** [m[0]]: [undefined] (here [None]) on the empty string. *)
Definition firstChar (m : string) : option ascii :=
  match m with EmptyString => None | String c _ => Some c end.

(** [m.endsWith(ch)] for a one-character [ch] *)
Fixpoint endsWith (m : string) (ch : ascii) : bool :=
  match m with
  | EmptyString => false
  | String c EmptyString => Ascii.eqb c ch
  | String _ rest => endsWith rest ch
  end.

Definition turnsOf (m : string) : nat :=
  if endsWith m "'"%char then 3 else if endsWith m "2"%char then 2 else 1.

(** [face + suffix] where [face = m1[0]]; string concatenation prints an
    [undefined] face by its name. *)
Definition faceText (m : string) : string :=
  match m with EmptyString => "undefined" | String c _ => String c EmptyString end.

(** What two adjacent moves on one face are replaced by. *)
Definition merged (m1 m2 : string) : list string :=
  let face := faceText m1 in
  let totalTurns := (turnsOf m1 + turnsOf m2) mod 4 in
  match totalTurns with
  | 0 => []
  | 1 => [face]
  | 2 => [(face ++ "2")%string]
  | _ => [(face ++ "'")%string]
  end.

(** One pass of the inner [while (i < simplified.length)]: the new list
    and whether [changed] was set. *)
Fixpoint simplifyPass (simplified : list string) : list string * bool :=
  match simplified with
  | [] => ([], false)
  | m1 :: rest =>
      match rest with
      | m2 :: rest2 =>
          if bool_decide (firstChar m1 = firstChar m2) then
            let (newMoves, _) := simplifyPass rest2 in
            (merged m1 m2 ++ newMoves, true)
          else
            let (newMoves, changed) := simplifyPass rest in
            (m1 :: newMoves, changed)
      | [] => ([m1], false)
      end
  end.

(** The outer [while (changed)] loop: it stops on a list shorter than two
    and after a pass that changed nothing.  A pass that changed something
    made the list shorter, which is why the loop ends. *)
Equations? simplifyLoop (simplified : list string) : list string
  by wf (length simplified) lt :=
  simplifyLoop simplified with bool_decide (length simplified < 2) := {
    | true => simplified
    | false with Logic.inspect (simplifyPass simplified) := {
        | exist _ (newMoves, true) Hpass => simplifyLoop newMoves
        | exist _ (newMoves, false) _ => newMoves } }.
Proof.
  clear simplifyLoop.
  assert (Hlen : forall l : list string,
    length (simplifyPass l).1 <= length l
    /\ ((simplifyPass l).2 = true -> length (simplifyPass l).1 < length l)).
  { induction l as [l IH] using (induction_ltof1 _ (@length string)).
    unfold ltof in IH.
    destruct l as [|m1 [|m2 rest2]]; [simpl; split; [lia | done] .. |].
    change (simplifyPass (m1 :: m2 :: rest2)) with
      (if bool_decide (firstChar m1 = firstChar m2)
       then let (newMoves, _) := simplifyPass rest2 in
            (merged m1 m2 ++ newMoves, true)
       else let (newMoves, changed) := simplifyPass (m2 :: rest2) in
            (m1 :: newMoves, changed)).
    case_bool_decide.
    - destruct (IH rest2) as [Hle _]; [simpl; lia |].
      destruct (simplifyPass rest2) as [newMoves' ch]; simpl in Hle |- *.
      rewrite length_app.
      assert (length (merged m1 m2) <= 1).
      { unfold merged.
        destruct ((turnsOf m1 + turnsOf m2) mod 4) as [|[|[|?]]]; simpl; lia. }
      split; [lia | intros _; lia].
    - destruct (IH (m2 :: rest2)) as [Hle Hlt]; [simpl; lia |].
      destruct (simplifyPass (m2 :: rest2)) as [newMoves' ch].
      simpl in Hle, Hlt |- *.
      split; [lia | intros Hch; specialize (Hlt Hch); lia]. }
  destruct (Hlen simplified) as [_ Hlt].
  rewrite Hpass in Hlt. simpl in Hlt. auto.
Qed.

(** [simplifyMoves(moves)] *)
Definition simplifyMoves (moves : list string) : list string :=
  simplifyLoop moves.

(** *** [solve] *)

Definition solve (fuel : nat) : M (list string) :=
  ifM isSolved (ret [])
    (solveWhiteCross ;;
     solveWhiteCorners fuel ;;
     solveMiddleLayer fuel ;;
     solveYellowCross ;;
     positionYellowEdges fuel ;;
     positionYellowCorners fuel ;;
     orientYellowCorners fuel ;;
     alignTopFace fuel ;;
     let* solution := (fun w => (Done (this_solution w), w)) in
     ret (simplifyMoves solution)).

(** ** The worker: [self.onmessage] *)

Record reply : Type := {
  success : bool;
  reply_solution : list string;
  move_count : nat
}.

(** [cubeState] is the state object received with the message; the worker
    makes a model, points its [state] at that object, and solves.  The
    reply is posted once [solve] has returned. *)
Definition onmessage (fuel : nat) (h : heap) (cubeState : loc)
  : result reply * world :=
  let (h1, cube0) := newCubeModel h in
  let cube := {| state := cubeState |} in
  let solver := newCubeSolverJS h1 cube in
  match solve fuel solver with
  | (Done solution, w) =>
      (Done {| success := true; reply_solution := solution;
               move_count := length solution |}, w)
  | (OutOfFuel, w) => (OutOfFuel, w)
  end.

(** Solving a state given by value: the caller's model is the only object
    of the store. *)
Definition solveState (fuel : nat) (s : CubeState) : result (list string) :=
  (solve fuel (newCubeSolverJS [s] {| state := 0 |})).1.

(** Replaying a move list on a state, as the consumers of a solution do:
    [executeAlgorithm(moves.join(' '))]. *)
Definition replay (moves : list string) (s : CubeState) : CubeState :=
  executeAlgorithm (join moves) s.

(** ** Notions of the specification *)

(** The move grammar of the data model: a face letter, optionally followed
    by ['] or [2]. *)
Definition faceLetters : list ascii := ["U"; "D"; "L"; "R"; "F"; "B"]%char.

Definition isFaceLetter (c : ascii) : bool := bool_decide (c ∈ faceLetters).

Definition validMove (m : string) : bool :=
  match m with
  | EmptyString => false
  | String c suffix =>
      isFaceLetter c && bool_decide (suffix ∈ [""; "'"; "2"])
  end.

(** The shape of every token the program itself handles: one character
    other than a space, optionally followed by ['] or [2].  The moves of the
    grammar have it, and so do their lower-case forms and the rotation
    tokens [y], [y'] and [y2] of the solver's log. *)
Definition moveToken (m : string) : bool :=
  match m with
  | EmptyString => false
  | String c suffix =>
      negb (Ascii.eqb c " ") && bool_decide (suffix ∈ [""; "'"; "2"])
  end.

(** A token, as [executeAlgorithm] and [execute] see one: a string that
    splits into itself. *)
Definition isToken (tok : string) : Prop := tokens tok = [tok].

(** The first character of the token, upper-cased, is none of the six
    face letters. *)
Definition unknownFace (tok : string) : bool :=
  match tok with
  | EmptyString => true
  | String c _ => negb (isFaceLetter (toUpperCase c))
  end.

(** From the specification, section 8: the move-wise inverse of an
    algorithm.  Reverse the order, swap the [']-suffixed and the unsuffixed
    moves, leave the [2]-suffixed ones. *)
Definition invertMove (m : string) : string :=
  match m with
  | String c EmptyString => String c "'"
  | String c (String "'" EmptyString) => String c EmptyString
  | _ => m
  end.

Definition invertAlgorithm (moves : list string) : list string :=
  rev (invertMove <$> moves).

(** The scenario of section 8: the solved cube after [F2]. *)
Definition cubeF2 : CubeState := executeAlgorithm "F2" solvedState.

(** ** The rest of the application (static/js/solver.js, cube3d.js) *)

(** The facelets in the order of [for (const face in cubeState)
    cubeState[face].forEach(...)]. *)
Definition cells (s : CubeState) : list jsval :=
  f_up s ++ f_down s ++ f_front s ++ f_back s ++ f_left s ++ f_right s.

(** [countColor(color)] *)
Definition countColor (color : jsval) (s : CubeState) : nat :=
  length (List.filter (fun c => c === color) (cells s)).

(** *** [validateCubeState]

    [counts] is an object literal with the six colours as its own
    properties.  [counts[color]] converts [color] to a property name, and it
    also finds what the object inherits from its prototype.  [inherits k]
    says that [k] is such a name and that the increment of [counts[k]]
    leaves a property [k], holding [NaN], on [counts] itself; which names
    those are is the engine's business, so it is a parameter. *)

Definition keyOf (v : jsval) : string :=
  match v with
  | JUndefined => "undefined"
  | JNull => "null"
  | JString c => c
  end.

(** The own properties in insertion order; [None] is [NaN]. *)
Abbreviation countsObject := (list (string * option nat)).

Definition initialCounts : countsObject :=
  [("W", Some 0); ("Y", Some 0); ("R", Some 0);
   ("O", Some 0); ("G", Some 0); ("B", Some 0)].

Fixpoint ownProperty (k : string) (counts : countsObject)
  : option (option nat) :=
  match counts with
  | [] => None
  | (k', v) :: rest => if String.eqb k' k then Some v else ownProperty k rest
  end.

Fixpoint increment (k : string) (counts : countsObject) : countsObject :=
  match counts with
  | [] => []
  | (k', v) :: rest =>
      if String.eqb k' k then (k', S <$> v) :: rest
      else (k', v) :: increment k rest
  end.

(** [if (counts[color] !== undefined) counts[color]++] *)
Definition countOne (inherits : string -> bool) (counts : countsObject)
    (color : jsval) : countsObject :=
  let k := keyOf color in
  match ownProperty k counts with
  | Some _ => increment k counts
  | None => if inherits k then counts ++ [(k, None)] else counts
  end.

Definition requiredFaces : list FaceName :=
  [up; down; front; back; left; right].

Definition validateCubeState (inherits : string -> bool) (s : CubeState)
  : bool :=
  if negb (forallb (fun n => bool_decide (length (faceOf s n) = 9))
             requiredFaces)
  then false
  else
    let counts := foldl (countOne inherits) initialCounts (cells s) in
    forallb (fun kv : string * option nat => bool_decide (kv.2 = Some 9))
            counts.

(** *** Undo history: [saveState], [undo], [redo] *)

Record App : Type := {
  cubeState : CubeState;
  stateHistory : list CubeState;
  historyIndex : Z
}.

Definition MAX_HISTORY : nat := 50.

(** [arr.slice(0, end)]: a negative [end] counts from the end of the
    array. *)
Definition slice0 {A} (arr : list A) (e : Z) : list A :=
  if (e <? 0)%Z then take (Z.to_nat (Z.of_nat (length arr) + e)) arr
  else take (Z.to_nat e) arr.

Definition saveState (a : App) : App :=
  let history := slice0 (stateHistory a) (historyIndex a + 1) in
  let history := history ++ [jsonCopy (cubeState a)] in
  if decide (MAX_HISTORY < length history)
  then {| cubeState := cubeState a; stateHistory := tail history;
          historyIndex := historyIndex a |}
  else {| cubeState := cubeState a; stateHistory := history;
          historyIndex := historyIndex a + 1 |}.

(** [JSON.parse(JSON.stringify(stateHistory[i]))]; past the end the entry
    is [undefined] and [JSON.parse] throws, which is [None] here. *)
Definition historyEntry (a : App) (i : Z) : option CubeState :=
  if (i <? 0)%Z then None else jsonCopy <$> stateHistory a !! Z.to_nat i.

Definition undo (a : App) : option App :=
  if (0 <? historyIndex a)%Z then
    let i := (historyIndex a - 1)%Z in
    s ← historyEntry a i;
    Some {| cubeState := s; stateHistory := stateHistory a;
            historyIndex := i |}
  else Some a.

Definition redo (a : App) : option App :=
  if (historyIndex a <? Z.of_nat (length (stateHistory a)) - 1)%Z then
    let i := (historyIndex a + 1)%Z in
    s ← historyEntry a i;
    Some {| cubeState := s; stateHistory := stateHistory a;
            historyIndex := i |}
  else Some a.

(** *** The click on a sticker of the 2D editor

    [index] and [face] come from the clicked element, [currentColor] from
    the palette ([undefined] when no colour is active). *)
Definition falsy (v : jsval) : bool :=
  match v with
  | JUndefined | JNull => true
  | JString c => String.eqb c ""
  end.

Definition stickerClick (faceName : FaceName) (index : nat)
    (currentColor : jsval) (a : App) : App :=
  if decide (index = 4) then a
  else if falsy currentColor then a
  else
    let oldColor := (cubeState a).[faceName, index] in
    let colorCount :=
      countColor currentColor (cubeState a)
      - (if oldColor === currentColor then 1 else 0) in
    if bool_decide (9 <= colorCount) && (oldColor !== currentColor) then a
    else
      let a' := saveState a in
      {| cubeState := setFacelet (cubeState a') faceName index currentColor;
         stateHistory := stateHistory a';
         historyIndex := historyIndex a' |}.

(** *** [analyzeSolution] *)

Record stats : Type := { htm : nat; qtm : nat; estimatedTime : nat }.

Definition analyzeSolution (solution : list string) : stats :=
  let htm := length solution in
  let qtm := foldl (fun qtm mv =>
                      if includes mv "2"%char then qtm + 2 else qtm + 1)
                   0 solution in
  {| htm := htm; qtm := qtm;
     (* Math.ceil(htm * 0.5) *)
     estimatedTime := (htm + 1) / 2 |}.

(** *** [Cube3D._mapStateToStickers]: the stickers of the 26 cubies *)
Definition mapStateToStickers (s : CubeState)
  : list (string * list (FaceName * jsval)) :=
  [ ("cubieURF", [(up, s.[up, 8]); (right, s.[right, 2]); (front, s.[front, 2])]);
    ("cubieULF", [(up, s.[up, 6]); (left, s.[left, 0]); (front, s.[front, 0])]);
    ("cubieURB", [(up, s.[up, 2]); (right, s.[right, 0]); (back, s.[back, 0])]);
    ("cubieULB", [(up, s.[up, 0]); (left, s.[left, 2]); (back, s.[back, 2])]);
    ("cubieDRF", [(down, s.[down, 2]); (right, s.[right, 8]); (front, s.[front, 8])]);
    ("cubieDLF", [(down, s.[down, 0]); (left, s.[left, 6]); (front, s.[front, 6])]);
    ("cubieDRB", [(down, s.[down, 8]); (right, s.[right, 6]); (back, s.[back, 6])]);
    ("cubieDLB", [(down, s.[down, 6]); (left, s.[left, 8]); (back, s.[back, 8])]);
    ("cubieUF", [(up, s.[up, 7]); (front, s.[front, 1])]);
    ("cubieUB", [(up, s.[up, 1]); (back, s.[back, 1])]);
    ("cubieUR", [(up, s.[up, 5]); (right, s.[right, 1])]);
    ("cubieUL", [(up, s.[up, 3]); (left, s.[left, 1])]);
    ("cubieDF", [(down, s.[down, 1]); (front, s.[front, 7])]);
    ("cubieDB", [(down, s.[down, 7]); (back, s.[back, 7])]);
    ("cubieDR", [(down, s.[down, 5]); (right, s.[right, 7])]);
    ("cubieDL", [(down, s.[down, 3]); (left, s.[left, 7])]);
    ("cubieRF", [(right, s.[right, 5]); (front, s.[front, 5])]);
    ("cubieLF", [(left, s.[left, 3]); (front, s.[front, 3])]);
    ("cubieRB", [(right, s.[right, 3]); (back, s.[back, 3])]);
    ("cubieLB", [(left, s.[left, 5]); (back, s.[back, 5])]);
    ("cubieU", [(up, s.[up, 4])]);
    ("cubieD", [(down, s.[down, 4])]);
    ("cubieF", [(front, s.[front, 4])]);
    ("cubieB", [(back, s.[back, 4])]);
    ("cubieL", [(left, s.[left, 4])]);
    ("cubieR", [(right, s.[right, 4])]) ].

(** The colours the stickers show on one face of the cube. *)
Definition stickersOn (n : FaceName) (s : CubeState) : list jsval :=
  (fun p : FaceName * jsval => p.2)
    <$> List.filter (fun p : FaceName * jsval => bool_decide (p.1 = n))
          (mjoin ((fun c : string * list (FaceName * jsval) => c.2)
                    <$> mapStateToStickers s)).

(** ** Notions used in the further proofs *)

(** A string of spaces, possibly empty. *)
Fixpoint blank (str : string) : bool :=
  match str with
  | EmptyString => true
  | String c rest => Ascii.eqb c " " && blank rest
  end.

(** The number of entries of a list equal to [v], as a sum. *)
Definition tally (v : jsval) (l : list jsval) : nat :=
  foldr (fun x n => (if x === v then 1 else 0) + n) 0 l.

(** The six colour codes of [counts], and the [counts] object that holds
    [n k] under each colour [k], followed by [extras]. *)
Definition colourCodes : list string := ["W"; "Y"; "R"; "O"; "G"; "B"].

Definition countsWith (n : string -> nat) (extras : countsObject)
  : countsObject :=
  [("W", Some (n "W")); ("Y", Some (n "Y")); ("R", Some (n "R"));
   ("O", Some (n "O")); ("G", Some (n "G")); ("B", Some (n "B"))] ++ extras.

(** The facelets of a list that are one of the six colour codes. *)
Definition colourTally (l : list jsval) : nat :=
  tally (JString "W") l + tally (JString "Y") l + tally (JString "R") l
  + tally (JString "O") l + tally (JString "G") l + tally (JString "B") l.

(** A method that only ever appends to the solution log. *)
Definition appendsOnly {A} (m : M A) : Prop :=
  forall w, exists ext, this_solution (m w).2 = this_solution w ++ ext.

(** The solver's cube is an object of the store. *)
Definition cubeAllocated (w : world) : Prop :=
  state (this_cube w) < length (objects w).

(** The world after [k] calls of [execute(moves)]. *)
Definition executed (moves : string) (k : nat) (w : world) : world :=
  Nat.iter k (fun w' => (execute moves w').2) w.

(** No two neighbours of the list start with the same character. *)
Fixpoint settled (moves : list string) : bool :=
  match moves with
  | [] => true
  | m1 :: rest =>
      match rest with
      | [] => true
      | m2 :: _ =>
          negb (bool_decide (firstChar m1 = firstChar m2)) && settled rest
      end
  end.

(** Bounds the undo history keeps. *)
Definition historyOK (a : App) : Prop :=
  (-1 <= historyIndex a < Z.of_nat (length (stateHistory a)))%Z
  /\ length (stateHistory a) <= MAX_HISTORY.

(** ** Notions used in the proofs *)

(** The six arguments [_performMove] has a case for. *)
Definition moveLetters : list string := ["F"; "B"; "U"; "D"; "L"; "R"].

(** A statement that leaves entry 4 of every face alone. *)
Definition keepsCentres (f : CubeState -> CubeState) : Prop :=
  forall s n, (f s).[n, 4] = s.[n, 4].

(** No space in the string. *)
Definition spaceFree (m : string) : bool := negb (includes m " "%char).

(** The moves of a list, one after the other. *)
Definition runMoves (moves : list string) (s : CubeState) : CubeState :=
  foldl (fun acc mv => executeMove mv acc) s moves.

(** A method keeps an invariant of the world, whether it returns or runs
    out of fuel. *)
Definition preserves (I : world -> Prop) {A} (m : M A) : Prop :=
  forall w, I w -> I (m w).2.

(** * Properties *)

(** ** Arrays *)

Lemma get_set (a : face) (i j : nat) (v : jsval) :
  get (set a i v) j = if decide (i = j) then v else get a j.
Proof.
  unfold get, set. destruct (decide (i < length a)) as [Hi|Hi].
  - destruct (decide (i = j)) as [->|Hij].
    + by rewrite list_lookup_insert_eq.
    + by rewrite list_lookup_insert_ne.
  - destruct (decide (j < length a)) as [Hj|Hj].
    + rewrite lookup_app_l by done.
      destruct (decide (i = j)); [lia | done].
    + rewrite lookup_app_r by lia.
      rewrite (lookup_ge_None_2 a j) by lia. simpl.
      destruct (decide (j - length a < i - length a)) as [Hlt|Hge].
      * rewrite lookup_app_l by (rewrite length_replicate; lia).
        rewrite lookup_replicate_2 by lia.
        destruct (decide (i = j)); [lia | done].
      * rewrite lookup_app_r by (rewrite length_replicate; lia).
        rewrite length_replicate.
        destruct (decide (i = j)) as [->|Hij].
        -- by rewrite Nat.sub_diag.
        -- destruct (j - length a - (i - length a)) as [|k] eqn:Hk; [lia | done].
Qed.

Lemma get_set_ne (a : face) (i j : nat) (v : jsval) :
  i <> j -> get (set a i v) j = get a j.
Proof. intros Hij. rewrite get_set. by destruct (decide (i = j)). Qed.

(** A rotation of the facelets of a face leaves entry 4 where it is:
    both mappings send 4 to 4. *)
Lemma rotateCells_centre (clockwise : bool) (a : face) :
  get (rotateCells (if clockwise then cwMapping else ccwMapping) a) 4 = get a 4.
Proof.
  unfold rotateCells.
  destruct clockwise; simpl; by rewrite !get_set.
Qed.

(** ** The engine keeps the centres *)

Lemma faceOf_withFace (s : CubeState) (n n' : FaceName) (a : face) :
  faceOf (withFace s n a) n' = if decide (n = n') then a else faceOf s n'.
Proof. by destruct s, n, n'. Qed.

Lemma facelet_setFacelet_other (s : CubeState) (n n' : FaceName) (i j : nat)
    (v : jsval) :
  i <> j -> (setFacelet s n i v).[n', j] = s.[n', j].
Proof.
  intros Hij. unfold facelet, setFacelet. rewrite faceOf_withFace.
  destruct (decide (n = n')) as [->|]; [by apply get_set_ne | done].
Qed.

Lemma rotateFace_centre (n n' : FaceName) (clockwise : bool) (s : CubeState) :
  (rotateFace n clockwise s).[n', 4] = s.[n', 4].
Proof.
  unfold facelet, rotateFace. rewrite faceOf_withFace.
  destruct (decide (n = n')) as [->|]; [apply rotateCells_centre | done].
Qed.

Lemma performMove_other (mv : string) (s : CubeState) :
  mv ∉ moveLetters -> performMove mv s = s.
Proof.
  intros Hmv. unfold performMove.
  repeat match goal with
  | |- context [String.eqb mv ?x] =>
      destruct (String.eqb_spec mv x) as [->|_];
      [exfalso; apply Hmv; unfold moveLetters; repeat constructor |]
  end.
  reflexivity.
Qed.

Lemma keepsCentres_store (dst : FaceName * nat) (v : jsval) :
  dst.2 <> 4 -> keepsCentres (store dst v).
Proof. intros Hd s n. by apply facelet_setFacelet_other. Qed.

Lemma keepsCentres_assign (dst src : FaceName * nat) :
  dst.2 <> 4 -> keepsCentres (assign dst src).
Proof. intros Hd s n. by apply facelet_setFacelet_other. Qed.

Lemma run_centre (stmts : list (CubeState -> CubeState)) (s : CubeState)
    (n : FaceName) :
  Forall keepsCentres stmts -> (run stmts s).[n, 4] = s.[n, 4].
Proof.
  unfold run. intros H. revert s.
  induction H as [|f stmts Hf _ IH]; intros s; [done |].
  simpl. by rewrite IH, Hf.
Qed.

Lemma keepsCentres_rotateFace (n : FaceName) (clockwise : bool) :
  keepsCentres (rotateFace n clockwise).
Proof. intros s n'. apply rotateFace_centre. Qed.

Ltac keeps_centres :=
  repeat first
    [ apply Forall_nil_2
    | apply Forall_cons_2
    | apply keepsCentres_store; simpl; lia
    | apply keepsCentres_assign; simpl; lia ].

Lemma keepsCentres_cases :
  keepsCentres caseF /\ keepsCentres caseB /\ keepsCentres caseU
  /\ keepsCentres caseD /\ keepsCentres caseL /\ keepsCentres caseR.
Proof.
  repeat split; intros s n;
    unfold caseF, caseB, caseU, caseD, caseL, caseR; cbv zeta;
    rewrite !run_centre by keeps_centres; apply rotateFace_centre.
Qed.

Lemma performMove_centre (mv : string) (s : CubeState) (n : FaceName) :
  (performMove mv s).[n, 4] = s.[n, 4].
Proof.
  destruct keepsCentres_cases as (HF & HB & HU & HD & HL & HR).
  unfold performMove.
  repeat match goal with
  | |- context [String.eqb mv ?x] => destruct (String.eqb mv x)
  end; auto.
Qed.

Lemma move_centre (mv : string) (prime double : bool) (s : CubeState)
    (n : FaceName) :
  (move mv prime double s).[n, 4] = s.[n, 4].
Proof.
  unfold move. generalize (if double then 2 else if prime then 3 else 1).
  intros cycles. induction cycles as [|k IH]; [done |].
  simpl. by rewrite performMove_centre.
Qed.

Lemma executeMove_centre (m : string) (s : CubeState) (n : FaceName) :
  (executeMove m s).[n, 4] = s.[n, 4].
Proof. destruct m; [done | apply move_centre]. Qed.

Lemma executeAlgorithm_centre (algorithm : string) (s : CubeState)
    (n : FaceName) :
  (executeAlgorithm algorithm s).[n, 4] = s.[n, 4].
Proof.
  unfold executeAlgorithm. generalize (tokens algorithm). intros l.
  revert s. induction l as [|m l IH]; intros s; [done |].
  simpl. by rewrite IH, executeMove_centre.
Qed.


(** ** States with nine facelets a face *)

Ltac list9 a H :=
  do 9 (destruct a as [|? a]; [by simpl in H |]);
  destruct a; [clear H | by simpl in H].

Ltac nine_cells s H :=
  destruct s as [? ? ? ? ? ?];
  unfold nine, faceNames in H; rewrite !Forall_cons in H; simpl in H;
  destruct H as (? & ? & ? & ? & ? & ? & _);
  repeat match goal with
  | Hl : length ?a = 9 |- _ => is_var a; list9 a Hl
  end.

Lemma performMove_letter (mv : string) (s : CubeState) :
  performMove mv s = s
  \/ performMove mv = caseF \/ performMove mv = caseB
  \/ performMove mv = caseU \/ performMove mv = caseD
  \/ performMove mv = caseL \/ performMove mv = caseR.
Proof.
  destruct (decide (mv ∈ moveLetters)) as [Hin|Hout];
    [| left; by apply performMove_other].
  right. unfold moveLetters in Hin.
  repeat (apply elem_of_cons in Hin as [->|Hin]);
    [ .. | by apply elem_of_nil in Hin].
  all: tauto.
Qed.

Lemma nine_cases (s : CubeState) :
  nine s ->
  nine (caseF s) /\ nine (caseB s) /\ nine (caseU s)
  /\ nine (caseD s) /\ nine (caseL s) /\ nine (caseR s).
Proof.
  intros H. nine_cells s H.
  repeat split; vm_compute; repeat constructor.
Qed.

Lemma performMove_nine (mv : string) (s : CubeState) :
  nine s -> nine (performMove mv s).
Proof.
  intros H. destruct (nine_cases s H) as (HF & HB & HU & HD & HL & HR).
  destruct (performMove_letter mv s) as [Hm|[Hm|[Hm|[Hm|[Hm|[Hm|Hm]]]]]];
    rewrite Hm; assumption.
Qed.

(** Four quarter turns of one face bring every facelet back. *)
Lemma order4_cases (s : CubeState) :
  nine s ->
  Nat.iter 4 caseF s = s /\ Nat.iter 4 caseB s = s /\ Nat.iter 4 caseU s = s
  /\ Nat.iter 4 caseD s = s /\ Nat.iter 4 caseL s = s
  /\ Nat.iter 4 caseR s = s.
Proof.
  intros H. nine_cells s H.
  repeat split; vm_compute; reflexivity.
Qed.

Lemma performMove_order4 (mv : string) (s : CubeState) :
  nine s -> Nat.iter 4 (performMove mv) s = s.
Proof.
  intros H. destruct (order4_cases s H) as (HF & HB & HU & HD & HL & HR).
  destruct (performMove_letter mv s) as [Hm|[Hm|[Hm|[Hm|[Hm|[Hm|Hm]]]]]];
    [ simpl; by rewrite !Hm | rewrite Hm; assumption .. ].
Qed.

(** ** Algorithm strings and move lists *)

Lemma split_space_spaceFree (t : string) :
  spaceFree t = true -> split_space t = [t].
Proof.
  unfold spaceFree. induction t as [|c t IH]; [done |].
  simpl. destruct (Ascii.eqb c " ") eqn:Hc; [done |].
  simpl. intros Ht. by rewrite IH.
Qed.

Lemma split_space_app (t r : string) :
  spaceFree t = true ->
  split_space (t ++ String " " r)%string = t :: split_space r.
Proof.
  unfold spaceFree. induction t as [|c t IH]; [done |].
  simpl. destruct (Ascii.eqb c " ") eqn:Hc; [done |].
  simpl. intros Ht. by rewrite IH.
Qed.

(** Joining tokens with spaces and splitting again gives the tokens. *)
Lemma tokens_join (moves : list string) :
  Forall (fun m => nonEmpty m = true /\ spaceFree m = true) moves ->
  tokens (join moves) = moves.
Proof.
  unfold tokens, join.
  induction 1 as [|m moves [Hne Hsp] Hrest IH]; [done |].
  destruct moves as [|m' moves].
  - simpl. rewrite split_space_spaceFree by done. simpl. by rewrite Hne.
  - change (String.concat " " (m :: m' :: moves))
      with (m ++ String " " (String.concat " " (m' :: moves)))%string.
    rewrite split_space_app by done. simpl.
    rewrite Hne. f_equal. exact IH.
Qed.

Lemma runMoves_app (l1 l2 : list string) (s : CubeState) :
  runMoves (l1 ++ l2) s = runMoves l2 (runMoves l1 s).
Proof. apply foldl_app. Qed.

(** The eighteen moves of the grammar. *)
Lemma validMove_inv (m : string) :
  validMove m = true ->
  exists c suffix, m = String c suffix /\ c ∈ faceLetters
                   /\ suffix ∈ [""; "'"; "2"].
Proof.
  destruct m as [|c suffix]; [done |]. simpl.
  intros [Hc Hs]%andb_prop. unfold isFaceLetter in Hc.
  apply bool_decide_eq_true in Hc, Hs. by exists c, suffix.
Qed.

Lemma moveToken_inv (m : string) :
  moveToken m = true ->
  exists c suffix, m = String c suffix /\ c <> " "%char
                   /\ suffix ∈ [""; "'"; "2"].
Proof.
  destruct m as [|c suffix]; [done |]. simpl.
  intros [Hc Hs]%andb_prop.
  apply negb_true_iff, Ascii.eqb_neq in Hc.
  apply bool_decide_eq_true in Hs. by exists c, suffix.
Qed.

Lemma validMove_moveToken (m : string) :
  validMove m = true -> moveToken m = true.
Proof.
  intros (c & suffix & -> & Hc & Hs)%validMove_inv. simpl.
  rewrite (bool_decide_eq_true_2 _ Hs), andb_true_r.
  unfold faceLetters in Hc.
  repeat (apply elem_of_cons in Hc as [->|Hc]); [ .. | by apply elem_of_nil in Hc];
    done.
Qed.

Lemma moveToken_token (m : string) :
  moveToken m = true -> nonEmpty m = true /\ spaceFree m = true.
Proof.
  intros (c & suffix & -> & Hc & Hs)%moveToken_inv.
  split; [done |]. unfold spaceFree. cbn [includes].
  apply Ascii.eqb_neq in Hc. rewrite Hc.
  repeat (apply elem_of_cons in Hs as [->|Hs]); [ .. | by apply elem_of_nil in Hs];
    done.
Qed.

Lemma replay_runMoves (moves : list string) (s : CubeState) :
  Forall (fun m => moveToken m = true) moves ->
  replay moves s = runMoves moves s.
Proof.
  intros H. unfold replay, executeAlgorithm, runMoves.
  rewrite tokens_join; [done |].
  eapply Forall_impl; [exact H |]. apply moveToken_token.
Qed.

(** A valid move is [turnsOf] quarter turns of its face. *)
Lemma executeMove_valid (c : ascii) (suffix : string) (s : CubeState) :
  c ∈ faceLetters -> suffix ∈ [""; "'"; "2"] ->
  executeMove (String c suffix) s
  = Nat.iter (turnsOf (String c suffix)) (performMove (String c "")) s.
Proof.
  intros Hc Hs. unfold faceLetters in Hc.
  repeat (apply elem_of_cons in Hc as [->|Hc]); [ .. | by apply elem_of_nil in Hc];
    repeat (apply elem_of_cons in Hs as [->|Hs]); try (by apply elem_of_nil in Hs);
    reflexivity.
Qed.

Lemma turnsOf_valid (c : ascii) (suffix : string) :
  c ∈ faceLetters ->
  turnsOf (String c "") = 1 /\ turnsOf (String c "'") = 3
  /\ turnsOf (String c "2") = 2.
Proof.
  intros Hc. unfold faceLetters in Hc.
  repeat (apply elem_of_cons in Hc as [->|Hc]); [ .. | by apply elem_of_nil in Hc];
    done.
Qed.

Lemma iter_nine (mv : string) (k : nat) (s : CubeState) :
  nine s -> nine (Nat.iter k (performMove mv) s).
Proof.
  intros H. induction k as [|k IH]; [done |].
  simpl. by apply performMove_nine.
Qed.

Lemma executeMove_nine (m : string) (s : CubeState) :
  nine s -> nine (executeMove m s).
Proof. intros H. destruct m; [done |]. by apply iter_nine. Qed.

Lemma runMoves_nine (moves : list string) (s : CubeState) :
  nine s -> nine (runMoves moves s).
Proof.
  revert s. induction moves as [|m moves IH]; intros s H; [done |].
  simpl. apply IH. by apply executeMove_nine.
Qed.

(** Quarter turns of one face count modulo four. *)
Lemma iter_mod4 (mv : string) (k : nat) (s : CubeState) :
  nine s ->
  Nat.iter k (performMove mv) s = Nat.iter (k mod 4) (performMove mv) s.
Proof.
  intros H.
  assert (Hq : forall q, Nat.iter (q * 4) (performMove mv) s = s).
  { induction q as [|q IH]; [done |].
    change (S q * 4) with (4 + q * 4).
    by rewrite Nat.iter_add, IH, performMove_order4. }
  transitivity (Nat.iter (k mod 4 + k / 4 * 4) (performMove mv) s).
  - f_equal. pose proof (Nat.div_mod_eq k 4). lia.
  - by rewrite Nat.iter_add, Hq.
Qed.

Lemma unknownFace_performMove (c : ascii) (s : CubeState) :
  isFaceLetter (toUpperCase c) = false ->
  performMove (String (toUpperCase c) "") s = s.
Proof.
  intros Hc. apply performMove_other. intros Hin.
  apply bool_decide_eq_false in Hc. apply Hc.
  unfold moveLetters in Hin. unfold faceLetters.
  repeat match type of Hin with
  | _ ∈ _ :: _ =>
      apply elem_of_cons in Hin as [Heq|Hin];
      [injection Heq as ->; repeat constructor |]
  | _ ∈ [] => by apply elem_of_nil in Hin
  end.
Qed.

Lemma executeMove_unknownFace (tok : string) (s : CubeState) :
  unknownFace tok = true -> executeMove tok s = s.
Proof.
  destruct tok as [|c rest]; [done |].
  unfold unknownFace. intros Hc%negb_true_iff. unfold executeMove, move.
  match goal with |- Nat.iter ?n _ _ = _ => generalize n end.
  intros cycles. induction cycles as [|k IH]; [done |].
  simpl. rewrite IH. by apply unknownFace_performMove.
Qed.

(** The characters whose upper case is a face letter. *)
Lemma knownFace_inv (c : ascii) :
  isFaceLetter (toUpperCase c) = true ->
  c ∈ ["U"; "D"; "L"; "R"; "F"; "B"; "u"; "d"; "l"; "r"; "f"; "b"]%char.
Proof.
  destruct c as [[] [] [] [] [] [] [] []]; intros H;
    vm_compute in H; try discriminate H; repeat constructor.
Qed.

(** A move token is [turnsOf] quarter turns of the face its first
    character names, and nothing at all when it names none. *)
Lemma executeMove_token (c : ascii) (suffix : string) (s : CubeState) :
  suffix ∈ [""; "'"; "2"] ->
  executeMove (String c suffix) s
  = Nat.iter (turnsOf (String c suffix))
      (performMove (String (toUpperCase c) "")) s.
Proof.
  intros Hs. destruct (isFaceLetter (toUpperCase c)) eqn:Hc.
  - apply knownFace_inv in Hc.
    repeat (apply elem_of_cons in Hc as [->|Hc]); [ .. | by apply elem_of_nil in Hc];
      repeat (apply elem_of_cons in Hs as [->|Hs]);
      try (by apply elem_of_nil in Hs); reflexivity.
  - rewrite executeMove_unknownFace by (simpl; by rewrite Hc).
    generalize (turnsOf (String c suffix)). intros k.
    induction k as [|k IH]; [done |].
    simpl. rewrite <- IH. by rewrite unknownFace_performMove.
Qed.

Lemma turnsOf_known (c : ascii) :
  isFaceLetter (toUpperCase c) = true ->
  turnsOf (String c "") = 1 /\ turnsOf (String c "'") = 3
  /\ turnsOf (String c "2") = 2.
Proof.
  intros Hc%knownFace_inv.
  repeat (apply elem_of_cons in Hc as [->|Hc]); [ .. | by apply elem_of_nil in Hc];
    done.
Qed.

(** ** Inverse algorithms *)

Lemma invertMove_valid (m : string) :
  validMove m = true -> validMove (invertMove m) = true.
Proof.
  intros (c & suffix & -> & Hc & Hs)%validMove_inv.
  assert (isFaceLetter c = true) as Hc' by by apply bool_decide_eq_true.
  repeat (apply elem_of_cons in Hs as [->|Hs]); [ .. | by apply elem_of_nil in Hs];
    simpl; by rewrite Hc'.
Qed.

Lemma invertMove_undoes (m : string) (s : CubeState) :
  validMove m = true -> nine s ->
  executeMove (invertMove m) (executeMove m s) = s.
Proof.
  intros (c & suffix & -> & Hc & Hs)%validMove_inv H.
  destruct (turnsOf_valid c suffix Hc) as (H1 & H3 & H2).
  repeat (apply elem_of_cons in Hs as [->|Hs]); [ .. | by apply elem_of_nil in Hs];
    cbn [invertMove];
    rewrite !executeMove_valid by (try done; repeat constructor);
    rewrite ?H1, ?H2, ?H3, <- Nat.iter_add;
    by apply performMove_order4.
Qed.

Lemma invertAlgorithm_valid (moves : list string) :
  Forall (fun m => validMove m = true) moves ->
  Forall (fun m => validMove m = true) (invertAlgorithm moves).
Proof.
  intros H. unfold invertAlgorithm. apply Forall_rev, Forall_fmap.
  eapply Forall_impl; [exact H |]. intros m. apply invertMove_valid.
Qed.

Lemma invertAlgorithm_undoes (moves : list string) (s : CubeState) :
  Forall (fun m => validMove m = true) moves -> nine s ->
  runMoves (invertAlgorithm moves) (runMoves moves s) = s.
Proof.
  intros Hv. revert s.
  induction Hv as [|m moves Hm _ IH]; intros s H; [done |].
  unfold invertAlgorithm. rewrite fmap_cons. simpl rev.
  rewrite runMoves_app. simpl.
  unfold invertAlgorithm in IH. rewrite IH by by apply executeMove_nine.
  by apply invertMove_undoes.
Qed.

(** ** The simplifier *)

Lemma simplifyPass_step (m1 m2 : string) (rest2 : list string) :
  simplifyPass (m1 :: m2 :: rest2) =
  if bool_decide (firstChar m1 = firstChar m2)
  then (merged m1 m2 ++ (simplifyPass rest2).1, true)
  else (m1 :: (simplifyPass (m2 :: rest2)).1, (simplifyPass (m2 :: rest2)).2).
Proof.
  change (simplifyPass (m1 :: m2 :: rest2)) with
    (if bool_decide (firstChar m1 = firstChar m2)
     then let (newMoves, _) := simplifyPass rest2 in
          (merged m1 m2 ++ newMoves, true)
     else let (newMoves, changed) := simplifyPass (m2 :: rest2) in
          (m1 :: newMoves, changed)).
  destruct (simplifyPass rest2), (simplifyPass (m2 :: rest2)); reflexivity.
Qed.

(** Two adjacent move tokens with the same first character, and what
    replaces them. *)
Lemma merged_token (m1 m2 : string) :
  moveToken m1 = true -> moveToken m2 = true ->
  firstChar m1 = firstChar m2 ->
  Forall (fun m => moveToken m = true) (merged m1 m2)
  /\ forall s, nine s ->
       runMoves (merged m1 m2) s = executeMove m2 (executeMove m1 s).
Proof.
  intros (c & suf1 & -> & Hc & Hs1)%moveToken_inv
         (c' & suf2 & -> & _ & Hs2)%moveToken_inv [= <-].
  assert (Hc' : Ascii.eqb c " " = false) by by apply Ascii.eqb_neq.
  set (total := (turnsOf (String c suf1) + turnsOf (String c suf2)) mod 4).
  assert (Hmerged :
    merged (String c suf1) (String c suf2) = []
    \/ exists suffix, merged (String c suf1) (String c suf2) = [String c suffix]
          /\ suffix ∈ [""; "'"; "2"]
          /\ (isFaceLetter (toUpperCase c) = true ->
              turnsOf (String c suffix) = total /\ total <> 0)).
  { unfold merged, faceText. fold total.
    destruct total as [|[|[|?]]] eqn:Htotal; [by left | right ..].
    - exists "". split; [done |]. split; [repeat constructor |].
      intros Hk. by destruct (turnsOf_known c Hk) as (-> & _ & _).
    - exists "2". split; [done |]. split; [repeat constructor |].
      intros Hk. by destruct (turnsOf_known c Hk) as (_ & _ & ->).
    - exists "'". split; [done |]. split; [repeat constructor |].
      intros Hk. destruct (turnsOf_known c Hk) as (_ & -> & _).
      pose proof (Nat.mod_upper_bound
        (turnsOf (String c suf1) + turnsOf (String c suf2)) 4).
      fold total in H. split; lia. }
  assert (Hzero : merged (String c suf1) (String c suf2) = [] -> total = 0).
  { unfold merged. fold total. by destruct total as [|[|[|?]]]. }
  assert (Hiter : forall s, nine s ->
    executeMove (String c suf2) (executeMove (String c suf1) s)
    = Nat.iter total (performMove (String (toUpperCase c) "")) s).
  { intros s H. rewrite !executeMove_token by done.
    rewrite <- Nat.iter_add, (Nat.add_comm (turnsOf (String c suf2))).
    by apply iter_mod4. }
  clearbody total.
  split.
  - destruct Hmerged as [->|(suffix & -> & Hsuf & _)]; [done |].
    repeat constructor. simpl.
    by rewrite Hc', (bool_decide_eq_true_2 _ Hsuf).
  - intros s H. rewrite Hiter by done.
    destruct Hmerged as [Hnil|(suffix & Hone & Hsuf & Hturns)].
    + rewrite Hnil, (Hzero Hnil). reflexivity.
    + rewrite Hone. unfold runMoves. cbn [foldl].
      rewrite executeMove_token by done.
      destruct (isFaceLetter (toUpperCase c)) eqn:Hk.
      * by destruct (Hturns eq_refl) as [-> _].
      * clear -Hk. generalize (turnsOf (String c suffix)) total. intros j k.
        assert (Hid : forall n, Nat.iter n
                  (performMove (String (toUpperCase c) "")) s = s).
        { induction n as [|n IH]; [done |]. simpl. rewrite IH.
          by apply unknownFace_performMove. }
        by rewrite !Hid.
Qed.

Lemma simplifyPass_sound (l : list string) :
  Forall (fun m => moveToken m = true) l ->
  Forall (fun m => moveToken m = true) (simplifyPass l).1
  /\ forall s, nine s -> runMoves (simplifyPass l).1 s = runMoves l s.
Proof.
  induction l as [l IH] using (induction_ltof1 _ (@length string)).
  unfold ltof in IH. intros Hv.
  destruct l as [|m1 [|m2 rest2]]; [by split .. |].
  apply Forall_cons in Hv as [Hm1 Hv].
  pose proof Hv as [Hm2 Hv2]%Forall_cons.
  rewrite simplifyPass_step. case_bool_decide as Hface; simpl.
  - destruct (IH rest2) as [IHv IHs]; [simpl; lia | done |].
    destruct (merged_token m1 m2) as [Hmv Hms]; [done .. |].
    split; [by apply Forall_app |].
    intros s H. rewrite runMoves_app, Hms by done.
    apply IHs. by do 2 apply executeMove_nine.
  - destruct (IH (m2 :: rest2)) as [IHv IHs]; [simpl; lia | done |].
    split; [by apply Forall_cons |].
    intros s H. unfold runMoves at 1. simpl foldl.
    apply IHs. by apply executeMove_nine.
Qed.

Lemma simplifyMoves_sound (moves : list string) :
  Forall (fun m => moveToken m = true) moves ->
  Forall (fun m => moveToken m = true) (simplifyMoves moves)
  /\ forall s, nine s -> runMoves (simplifyMoves moves) s = runMoves moves s.
Proof.
  unfold simplifyMoves. funelim (simplifyLoop moves); intros Hv.
  - by split.
  - destruct (simplifyPass_sound simplified Hv) as [Hpv Hps].
    rewrite Hpass in Hpv, Hps. simpl in Hpv, Hps.
    destruct (H Hpv) as [Hv' Hs']. split; [done |].
    intros s Hs. by rewrite Hs', Hps.
  - destruct (simplifyPass_sound simplified Hv) as [Hpv Hps].
    match goal with
    | Heq : simplifyPass simplified = _ |- _ => rewrite Heq in Hpv, Hps
    end.
    by split.
Qed.

(** ** Invariants of the solver

    Every phase changes the world through [execute] only, so whatever
    [execute] keeps, the whole of [solve] keeps, whether it returns or is
    still looping when the fuel is gone. *)

Section Invariant.
Variable I : world -> Prop.
Hypothesis I_execute : forall moves, preserves I (execute moves).

Lemma preserves_ret {A} (a : A) : preserves I (ret a).
Proof. by intros w. Qed.

Lemma preserves_test {A} (p : CubeState -> A) : preserves I (test p).
Proof. by intros w. Qed.

Lemma preserves_bind {A B} (m : M A) (k : A -> M B) :
  preserves I m -> (forall a, preserves I (k a)) -> preserves I (bind m k).
Proof.
  intros Hm Hk w Hw. unfold bind. specialize (Hm w Hw).
  destruct (m w) as [[a|] w']; simpl in *; [by apply Hk | done].
Qed.

Lemma preserves_ifM {A} (c : CubeState -> bool) (a b : M A) :
  preserves I a -> preserves I b -> preserves I (ifM c a b).
Proof. intros Ha Hb w Hw. unfold ifM. destruct (c (cur w)); auto. Qed.

Lemma preserves_if {A} (c : bool) (a b : M A) :
  preserves I a -> preserves I b -> preserves I (if c then a else b).
Proof. by destruct c. Qed.

Lemma preserves_if_dec {A} {P : Prop} (c : {P} + {~ P}) (a b : M A) :
  preserves I a -> preserves I b -> preserves I (if c then a else b).
Proof. by destruct c. Qed.

Lemma preserves_while (fuel : nat) (cond : M bool) (body : M unit) :
  preserves I cond -> preserves I body -> preserves I (while fuel cond body).
Proof.
  intros Hc Hb. induction fuel as [|n IH]; simpl;
    (apply preserves_bind; [done |]); intros [|];
    try apply preserves_ret; [by intros w | by apply preserves_bind].
Qed.

Lemma preserves_forBreak (n : nat) (cond : CubeState -> bool)
    (onBreak body : M unit) :
  preserves I onBreak -> preserves I body ->
  preserves I (forBreak n cond onBreak body).
Proof.
  intros Ho Hb. induction n as [|k IH]; simpl; [apply preserves_ret |].
  apply preserves_ifM; apply preserves_bind; auto using preserves_ret.
Qed.

Lemma preserves_forEach {A} (l : list A) (body : A -> M unit) :
  (forall x, preserves I (body x)) -> preserves I (forEach l body).
Proof.
  intros Hb. induction l as [|x l IH]; simpl; [apply preserves_ret |].
  by apply preserves_bind.
Qed.

Ltac preserves_step :=
  first [ apply preserves_ret | apply preserves_test | apply I_execute
        | apply preserves_bind; [| intros ?]
        | apply preserves_ifM | apply preserves_while
        | apply preserves_forBreak | apply preserves_forEach; intros ?
        | apply preserves_if_dec | apply preserves_if ].

Lemma preserves_solveWhiteCross : preserves I solveWhiteCross.
Proof. unfold solveWhiteCross, crossSearch. repeat preserves_step. Qed.

Lemma preserves_solveCorner (fuel : nat) (corner : string * string) :
  preserves I (solveCorner fuel corner).
Proof. unfold solveCorner. repeat preserves_step. Qed.

Lemma preserves_solveWhiteCorners (fuel : nat) :
  preserves I (solveWhiteCorners fuel).
Proof.
  unfold solveWhiteCorners. apply preserves_forEach.
  apply preserves_solveCorner.
Qed.

Lemma preserves_solveMiddleLayer (fuel : nat) :
  preserves I (solveMiddleLayer fuel).
Proof.
  unfold solveMiddleLayer. generalize 12. intros n.
  induction n as [|k IH]; cbn [middleLoop]; [apply preserves_ret |].
  repeat first [ exact IH | preserves_step ].
Qed.

Lemma preserves_solveYellowCross : preserves I solveYellowCross.
Proof. unfold solveYellowCross. repeat preserves_step. Qed.

Lemma preserves_countAligned (n correctCount : nat) :
  preserves I (countAligned n correctCount).
Proof.
  revert correctCount. induction n as [|k IH]; intros c; simpl;
    repeat first [ apply IH | preserves_step ].
Qed.

Lemma preserves_positionYellowEdges (fuel : nat) :
  preserves I (positionYellowEdges fuel).
Proof.
  unfold positionYellowEdges. apply preserves_bind; [repeat preserves_step |].
  intros _. generalize 5. intros n.
  induction n as [|k IH]; cbn [edgesLoop]; [apply preserves_ret |].
  apply preserves_bind; [apply preserves_countAligned |]. intros c.
  repeat first [ exact IH | preserves_step ].
Qed.

Lemma preserves_areCornersPositioned : preserves I areCornersPositioned.
Proof.
  unfold areCornersPositioned. generalize 4. intros n.
  induction n as [|k IH]; simpl; repeat first [ exact IH | preserves_step ].
Qed.

Lemma preserves_positionYellowCorners (fuel : nat) :
  preserves I (positionYellowCorners fuel).
Proof.
  unfold positionYellowCorners.
  repeat first [ apply preserves_areCornersPositioned | preserves_step ].
Qed.

Lemma preserves_orientReps (n : nat) : preserves I (orientReps n).
Proof.
  induction n as [|k IH]; simpl; repeat first [ exact IH | preserves_step ].
Qed.

Lemma preserves_orientYellowCorners (fuel : nat) :
  preserves I (orientYellowCorners fuel).
Proof.
  unfold orientYellowCorners.
  repeat first [ apply preserves_orientReps | preserves_step ].
Qed.

Lemma preserves_alignTopFace (fuel : nat) : preserves I (alignTopFace fuel).
Proof. unfold alignTopFace. repeat preserves_step. Qed.

Lemma preserves_solve (fuel : nat) : preserves I (solve fuel).
Proof.
  unfold solve. apply preserves_ifM; [apply preserves_ret |].
  repeat first
    [ apply preserves_solveWhiteCross | apply preserves_solveWhiteCorners
    | apply preserves_solveMiddleLayer | apply preserves_solveYellowCross
    | apply preserves_positionYellowEdges
    | apply preserves_positionYellowCorners
    | apply preserves_orientYellowCorners | apply preserves_alignTopFace
    | apply preserves_bind; [| intros ?] ];
    [by intros w | apply preserves_ret].
Qed.
End Invariant.

(** ** What [execute] does to the world *)

Lemma cur_execute (moves : string) (w : world) :
  cur (execute moves w).2
  = if decide (state (this_cube w) < length (objects w))
    then executeAlgorithm moves (cur w) else cur w.
Proof.
  unfold cur, execute, CubeModel_executeAlgorithm. simpl.
  case_decide as Hl.
  - by rewrite list_lookup_total_insert_eq.
  - by rewrite list_insert_ge by lia.
Qed.

Lemma execute_keeps_centre (n : FaceName) (v : jsval) (moves : string) :
  preserves (fun w => (cur w).[n, 4] = v) (execute moves).
Proof.
  intros w Hw. rewrite cur_execute. case_decide; [| done].
  by rewrite executeAlgorithm_centre.
Qed.

(** The token [y] reaches no case of the [switch]. *)
Lemma executeAlgorithm_y (s : CubeState) : executeAlgorithm "y" s = s.
Proof. reflexivity. Qed.

Lemma cur_execute_y (w : world) : cur (execute "y" w).2 = cur w.
Proof. rewrite cur_execute. case_decide; [apply executeAlgorithm_y | done]. Qed.

(** ** Loops that never end *)

Lemma bind_stuck {A B} (m : M A) (k : A -> M B) (w : world) :
  (m w).1 = OutOfFuel -> (bind m k w).1 = OutOfFuel.
Proof. unfold bind. by destruct (m w) as [[a|] w']. Qed.

Lemma bind_execute {B} (moves : string) (k : unit -> M B) (w : world) :
  bind (execute moves) k w = k tt (execute moves w).2.
Proof. reflexivity. Qed.

(** [while (cond) execute('y')] with [cond] a test of the cube: once
    entered, never left. *)
Lemma while_y_stuck (fuel : nat) (p : CubeState -> bool) (w : world) :
  p (cur w) = true ->
  (while fuel (test p) (execute "y") w).1 = OutOfFuel.
Proof.
  revert w. induction fuel as [|n IH]; intros w Hp.
  - simpl. unfold bind, test. by rewrite Hp.
  - cbn [while]. unfold bind at 1, test. rewrite Hp.
    rewrite bind_execute. apply IH. by rewrite cur_execute_y.
Qed.

Lemma solveCorner_stuck (fuel : nat) (corner : string * string) (w : world) :
  slotMisplaced (JString corner.1) (JString corner.2) (cur w) = true ->
  (solveCorner fuel corner w).1 = OutOfFuel.
Proof.
  intros Hslot. unfold solveCorner. apply bind_stuck. by apply while_y_stuck.
Qed.

(** The first two corner slots ask for two different colours at
    [front[4]], and no move changes a centre: one of the two [y] loops is
    entered. *)
Lemma solveWhiteCorners_stuck (fuel : nat) (w : world) :
  (solveWhiteCorners fuel w).1 = OutOfFuel.
Proof.
  unfold solveWhiteCorners, cornersToSolve. cbn [forEach].
  destruct (slotMisplaced (JString "R") (JString "G") (cur w)) eqn:Hslot.
  - apply bind_stuck. by apply solveCorner_stuck.
  - assert (Hfront : (cur w).[front, 4] = JString "R").
    { unfold slotMisplaced in Hslot.
      apply orb_false_elim in Hslot as [Hf _].
      unfold strict_ne, strict_eq in Hf.
      apply negb_false_iff, bool_decide_eq_true in Hf. exact Hf. }
    pose proof (preserves_solveCorner _ (execute_keeps_centre front (JString "R"))
                  fuel ("R", "G") w Hfront) as Hkeep.
    unfold bind at 1.
    destruct (solveCorner fuel ("R", "G") w) as [[[]|] w1]; [| done].
    simpl in Hkeep. apply bind_stuck, solveCorner_stuck.
    unfold slotMisplaced. simpl. by rewrite Hkeep.
Qed.

(** [solve()] on a cube that is not solved never returns. *)
Lemma solve_stuck (fuel : nat) (w : world) :
  isSolved (cur w) = false -> (solve fuel w).1 = OutOfFuel.
Proof.
  intros Hs. unfold solve, ifM. rewrite Hs.
  unfold bind at 1. destruct (solveWhiteCross w) as [[[]|] w1]; [| done].
  apply bind_stuck, solveWhiteCorners_stuck.
Qed.

Lemma solve_solved (fuel : nat) (w : world) :
  isSolved (cur w) = true -> solve fuel w = (Done [], w).
Proof. intros Hs. unfold solve, ifM. by rewrite Hs. Qed.

(** ** The constructor *)

Lemma newCubeSolverJS_objects (h : heap) (cubeModel : CubeModel) :
  objects (newCubeSolverJS h cubeModel)
  = h ++ [solvedState; jsonCopy solvedState;
          jsonCopy ((h ++ [solvedState; jsonCopy solvedState])
                      !!! state cubeModel)]
  /\ state (this_cube (newCubeSolverJS h cubeModel)) = length h + 2
  /\ this_solution (newCubeSolverJS h cubeModel) = [].
Proof.
  unfold newCubeSolverJS, newCubeModel, alloc. simpl.
  rewrite !length_app. simpl.
  rewrite (lookup_total_app_r h) by lia. rewrite Nat.sub_diag. simpl.
  rewrite <- !app_assoc. simpl.
  repeat split. lia.
Qed.

Lemma cur_newCubeSolverJS (h : heap) (cubeModel : CubeModel) (s : CubeState) :
  h !! state cubeModel = Some s ->
  cur (newCubeSolverJS h cubeModel) = jsonCopy s.
Proof.
  intros Hs. unfold cur.
  destruct (newCubeSolverJS_objects h cubeModel) as (-> & -> & _).
  rewrite lookup_total_app_r by lia.
  replace (length h + 2 - length h) with 2 by lia. simpl.
  f_equal. apply list_lookup_total_correct.
  by rewrite lookup_app_l by by eapply lookup_lt_Some.
Qed.

(** A JSON copy of a uniform face is uniform. *)
Lemma forallb_jsonValue (c : jsval) (a : face) :
  forallb (fun x => x === c) a = true ->
  forallb (fun x => x === jsonValue c) (jsonValue <$> a) = true.
Proof.
  induction a as [|x a IH]; [done |].
  rewrite fmap_cons. cbn [forallb]. intros [Hx Ha]%andb_prop.
  rewrite IH by done. unfold strict_eq in *.
  apply bool_decide_eq_true in Hx as ->.
  by rewrite bool_decide_eq_true_2.
Qed.

Lemma uniform_jsonCopy (a : face) :
  4 < length a -> uniform a = true -> uniform (jsonValue <$> a) = true.
Proof.
  unfold uniform, get. intros Hlen Hu.
  rewrite list_lookup_fmap.
  destruct (a !! 4) as [c|] eqn:E; [| apply lookup_ge_None in E; lia].
  by apply forallb_jsonValue.
Qed.

Lemma isSolved_jsonCopy (s : CubeState) :
  nine s -> isSolved s = true -> isSolved (jsonCopy s) = true.
Proof.
  intros H Hs. destruct s as [fu fd ff fb fl fr].
  unfold nine, faceNames in H. rewrite !Forall_cons in H. simpl in H.
  destruct H as (Hu & Hd & Hf & Hb & Hl & Hr & _).
  unfold isSolved in *. simpl in *.
  repeat (apply andb_prop in Hs as [? Hs]).
  rewrite !uniform_jsonCopy by (done || lia). done.
Qed.

Lemma solve_done (fuel : nat) (w w' : world) (solution : list string) :
  solve fuel w = (Done solution, w') ->
  solution = [] /\ w' = w /\ isSolved (cur w) = true.
Proof.
  intros Hsolve. destruct (isSolved (cur w)) eqn:Hs.
  - rewrite solve_solved in Hsolve by done. by injection Hsolve as <- <-.
  - pose proof (solve_stuck fuel w Hs) as Hstuck.
    by rewrite Hsolve in Hstuck.
Qed.









Lemma insert_same (h : heap) (l : loc) : <[l := h !!! l]> h = h.
Proof.
  destruct (decide (l < length h)) as [Hl|Hl].
  - apply list_insert_id. by apply list_lookup_lookup_total_lt.
  - apply list_insert_ge. lia.
Qed.

(** ** The model on concrete inputs *)

Example tokens_skips_empty : tokens " R  U' R2 " = ["R"; "U'"; "R2"].
Proof. reflexivity. Qed.

Example rotate_short_array :
  rotateCells cwMapping [JString "a"; JString "b"]
  = [JUndefined; JUndefined; JUndefined; JString "b"; JUndefined;
     JUndefined; JString "a"; JUndefined; JUndefined].
Proof. reflexivity. Qed.

(** The scenario of section 8: [R U R' U'] six times, from solved. *)
Example commutator_six_times :
  Nat.iter 6 (executeAlgorithm "R U R' U'") solvedState = solvedState.
Proof. reflexivity. Qed.

Example lower_case_face : executeAlgorithm "f" solvedState
                          = executeAlgorithm "F" solvedState.
Proof. reflexivity. Qed.

Example simplify_cancels :
  simplifyMoves ["R"; "U"; "U'"; "R'"] = [].
Proof. reflexivity. Qed.

(** Outside the grammar the simplifier and the engine read a token
    differently: ["R2'"] counts as three turns for the one (it ends in a
    quote) and as two for the other (it contains a 2). *)
Example simplify_reads_last_character :
  simplifyMoves ["R2'"; "R"] = []
  /\ replay ["R2'"; "R"] solvedState <> solvedState.
Proof. split; [reflexivity | discriminate]. Qed.

(** On the cube after [F2] the cross phase finds every white edge at once
    and seats it with [F2], four times over. *)
Example cross_on_F2 :
  let w := newCubeSolverJS [cubeF2] {| state := 0 |} in
  (solveWhiteCross w).1 = Done tt
  /\ this_solution (solveWhiteCross w).2 = ["F2"; "F2"; "F2"; "F2"]
  /\ cur (solveWhiteCross w).2 = cubeF2.
Proof. repeat split. Qed.

(** * The claims *)

(** C1 (fails on the code).  The phase loops

    - [while (front[4] !== frontColor || right[4] !== leftColor) execute('y')],
    - [while (down[2] !== white || ...) execute("R' D' R D")] and five more

    carry no bound, and the first of them never exits once entered, because
    [y] does not turn the cube.  Hence [solve()] returns on no input that is
    not already solved: whatever the fuel, the run is still looping. *)
Theorem solve_unsolved_never_returns (fuel : nat) (s : CubeState) :
  isSolved (jsonCopy s) = false -> solveState fuel s = OutOfFuel.
Proof.
  intros Hs. unfold solveState. apply solve_stuck.
  by rewrite (cur_newCubeSolverJS [s] {| state := 0 |} s).
Qed.

Lemma solve_unsolved_never_returns_witness :
  isSolved (jsonCopy (executeAlgorithm "R U" solvedState)) = false
  /\ solveState 1000 (executeAlgorithm "R U" solvedState) = OutOfFuel.
Proof.
  split; [reflexivity |].
  apply (solve_unsolved_never_returns 1000 (executeAlgorithm "R U" solvedState)).
  reflexivity.
Defined.

(** C2.  A token whose first character, upper-cased, is none of U, D, L, R,
    F, B (the [y] of the solver is one) leaves the cube as it is under
    [executeAlgorithm], and [execute] still appends it to the solution
    log. *)
Theorem unknown_face_token_ignored (tok : string) :
  isToken tok -> unknownFace tok = true ->
  (forall s, executeAlgorithm tok s = s)
  /\ (forall w, execute tok w
                = (Done tt, {| objects := objects w;
                               this_cube := this_cube w;
                               this_solution := this_solution w ++ [tok] |})).
Proof.
  intros Htok Hunknown.
  assert (Hexec : forall s, executeAlgorithm tok s = s).
  { intros s. unfold executeAlgorithm. rewrite Htok. simpl.
    by apply executeMove_unknownFace. }
  split; [exact Hexec |].
  intros w. unfold execute, CubeModel_executeAlgorithm.
  by rewrite Hexec, insert_same, Htok.
Qed.

Lemma unknown_face_token_ignored_witness :
  isToken "y" /\ unknownFace "y" = true
  /\ executeAlgorithm "y" cubeF2 = cubeF2
  /\ this_solution (execute "y" (newCubeSolverJS [cubeF2] {| state := 0 |})).2
     = ["y"].
Proof.
  assert (Htok : isToken "y") by reflexivity.
  assert (Hunk : unknownFace "y" = true) by reflexivity.
  destruct (unknown_face_token_ignored "y" Htok Hunk) as [Hs Hw].
  split; [exact Htok |]. split; [exact Hunk |].
  split; [apply Hs | by rewrite Hw].
Defined.

(** C3 (fails on the code).  From the solved cube with [F2] applied,
    [solve()] does not return a solution: after the white cross it stays in
    the [y] loop of [solveWhiteCorners], whatever the fuel. *)
Theorem solve_F2_never_returns (fuel : nat) :
  solveState fuel cubeF2 = OutOfFuel.
Proof.
  unfold solveState. apply solve_stuck.
  by rewrite (cur_newCubeSolverJS [cubeF2] {| state := 0 |} cubeF2).
Qed.


(** C5.  Replaying a move list and replaying its simplification, from the
    same nine-facelet state, end in the same state.  The moves may be any
    move tokens: those of the grammar and also the [y] tokens that the
    solver writes to its own log. *)
Theorem simplifyMoves_same_effect (moves : list string) (s : CubeState) :
  Forall (fun m => moveToken m = true) moves -> nine s ->
  replay (simplifyMoves moves) s = replay moves s.
Proof.
  intros Hv H. destruct (simplifyMoves_sound moves Hv) as [Hv' Hrun].
  rewrite !replay_runMoves by done. by apply Hrun.
Qed.

Lemma simplifyMoves_same_effect_witness :
  simplifyMoves ["R"; "R"; "U"; "U'"; "R2"; "y"; "y"; "F"; "B'"]
  = ["y2"; "F"; "B'"]
  /\ replay (simplifyMoves ["R"; "R"; "U"; "U'"; "R2"; "y"; "y"; "F"; "B'"])
       cubeF2
     = replay ["R"; "R"; "U"; "U'"; "R2"; "y"; "y"; "F"; "B'"] cubeF2.
Proof.
  split; [reflexivity |].
  apply (simplifyMoves_same_effect
           ["R"; "R"; "U"; "U'"; "R2"; "y"; "y"; "F"; "B'"] cubeF2).
  - repeat constructor.
  - repeat constructor.
Defined.

(** C6.  Four [performMove] of one face, one after the other, give back
    the state they started from; this holds for the six face letters and,
    trivially, for any other argument. *)
Theorem performMove_four_times (mv : string) (s : CubeState) :
  nine s ->
  performMove mv (performMove mv (performMove mv (performMove mv s))) = s.
Proof. intros H. exact (performMove_order4 mv s H). Qed.

Lemma performMove_four_times_witness :
  nine cubeF2
  /\ performMove "R" (performMove "R" (performMove "R" (performMove "R" cubeF2)))
     = cubeF2.
Proof.
  assert (H : nine cubeF2) by repeat constructor.
  split; [exact H |].
  apply (performMove_four_times "R" cubeF2 H).
Defined.

(** C7.  An algorithm of valid moves followed by its move-wise inverse
    (reversed, ['] and no suffix swapped, [2] kept) gives back the state it
    started from. *)
Theorem inverse_algorithm_undoes (moves : list string) (s : CubeState) :
  Forall (fun m => validMove m = true) moves -> nine s ->
  replay (invertAlgorithm moves) (replay moves s) = s.
Proof.
  intros Hv H.
  assert (Htok : forall l, Forall (fun m => validMove m = true) l ->
                           Forall (fun m => moveToken m = true) l).
  { intros l Hl. eapply Forall_impl; [exact Hl |]. apply validMove_moveToken. }
  rewrite !replay_runMoves by (apply Htok; (done || by apply invertAlgorithm_valid)).
  by apply invertAlgorithm_undoes.
Qed.

Lemma inverse_algorithm_undoes_witness :
  invertAlgorithm ["R"; "U'"; "F2"; "L"] = ["L'"; "F2"; "U"; "R'"]
  /\ replay (invertAlgorithm ["R"; "U'"; "F2"; "L"])
       (replay ["R"; "U'"; "F2"; "L"] cubeF2) = cubeF2.
Proof.
  split; [reflexivity |].
  apply (inverse_algorithm_undoes ["R"; "U'"; "F2"; "L"] cubeF2).
  - repeat constructor.
  - repeat constructor.
Defined.

(** C8.  Entry 4 of every face array is the same before and after
    [_performMove], [_rotateFace] in either direction, [_move] and
    [executeAlgorithm], on every state and every input. *)
Theorem centre_unchanged (s : CubeState) (n : FaceName) :
  (forall mv, (performMove mv s).[n, 4] = s.[n, 4])
  /\ (forall f clockwise, (rotateFace f clockwise s).[n, 4] = s.[n, 4])
  /\ (forall mv prime double, (move mv prime double s).[n, 4] = s.[n, 4])
  /\ (forall algorithm, (executeAlgorithm algorithm s).[n, 4] = s.[n, 4]).
Proof.
  split; [| split; [| split]].
  - intros mv. apply performMove_centre.
  - intros f clockwise. apply rotateFace_centre.
  - intros mv prime double. apply move_centre.
  - intros algorithm. apply executeAlgorithm_centre.
Qed.

(** C9.  Building a solver on the caller's model and running [solve()],
    to its return or for as long as one likes, changes no state object that
    existed before: the solver's cube is a JSON copy held in a new object. *)
Theorem solve_keeps_callers_state (fuel : nat) (h : heap)
    (cubeModel : CubeModel) (s : CubeState) :
  h !! state cubeModel = Some s ->
  let solver := newCubeSolverJS h cubeModel in
  let after := (solve fuel solver).2 in
  h !! state (this_cube solver) = None
  /\ cur solver = jsonCopy s
  /\ objects after !! state cubeModel = Some s
  /\ forall l o, h !! l = Some o -> objects after !! l = Some o.
Proof.
  intros Hs solver after.
  destruct (newCubeSolverJS_objects h cubeModel) as (Hobj & Hcube & _).
  fold solver in Hobj, Hcube.
  assert (Hframe : forall l o, h !! l = Some o -> objects after !! l = Some o).
  { intros l o Hl. pose proof (lookup_lt_Some _ _ _ Hl) as Hlt.
    pose (I := fun w : world =>
                 state (this_cube w) = length h + 2
                 /\ objects w !! l = Some o).
    assert (HI : forall moves, preserves I (execute moves)).
    { intros moves w [Hc Ho]. split; [done |].
      unfold execute, CubeModel_executeAlgorithm. simpl.
      rewrite list_lookup_insert_ne by lia. done. }
    apply (preserves_solve I HI fuel solver). split; [done |].
    rewrite Hobj. by rewrite lookup_app_l. }
  split; [| split; [| split]].
  - rewrite Hcube. apply lookup_ge_None. lia.
  - by apply cur_newCubeSolverJS.
  - by apply Hframe.
  - exact Hframe.
Qed.

Lemma solve_keeps_callers_state_witness :
  [cubeF2] !! 0 = Some cubeF2
  /\ (objects (solve 3 (newCubeSolverJS [cubeF2] {| state := 0 |})).2) !! 0
     = Some cubeF2.
Proof.
  split; [reflexivity |].
  destruct (solve_keeps_callers_state 3 [cubeF2] {| state := 0 |} cubeF2)
    as (_ & _ & Hcaller & _); [reflexivity |].
  exact Hcaller.
Defined.

(** C10.  On a solved cube (nine facelets a face, each equal to the centre
    of its face) [solve()] returns the empty list at once, having executed
    and logged nothing, and the worker reports zero moves. *)
Theorem solve_solved_returns_empty (fuel : nat) (h : heap) (cubeState : loc)
    (s : CubeState) :
  h !! cubeState = Some s -> nine s -> isSolved s = true ->
  solve fuel (newCubeSolverJS h {| state := cubeState |})
  = (Done [], newCubeSolverJS h {| state := cubeState |})
  /\ (onmessage fuel h cubeState).1
     = Done {| success := true; reply_solution := []; move_count := 0 |}.
Proof.
  intros Hs H Hsolved.
  assert (Hany : forall h', h' !! cubeState = Some s ->
            solve fuel (newCubeSolverJS h' {| state := cubeState |})
            = (Done [], newCubeSolverJS h' {| state := cubeState |})).
  { intros h' Hs'. apply solve_solved.
    rewrite (cur_newCubeSolverJS h' _ s) by done.
    by apply isSolved_jsonCopy. }
  split; [by apply Hany |].
  unfold onmessage, newCubeModel, alloc. rewrite Hany; [done |].
  rewrite !lookup_app_l; [done | |]; rewrite ?length_app;
    apply lookup_lt_Some in Hs; simpl; lia.
Qed.

Lemma solve_solved_returns_empty_witness :
  solve 0 (newCubeSolverJS [solvedState] {| state := 0 |})
  = (Done [], newCubeSolverJS [solvedState] {| state := 0 |})
  /\ (onmessage 0 [solvedState] 0).1
     = Done {| success := true; reply_solution := []; move_count := 0 |}.
Proof.
  apply (solve_solved_returns_empty 0 [solvedState] 0 solvedState).
  - reflexivity.
  - repeat constructor.
  - reflexivity.
Defined.

(** * Further properties of the code *)

(** ** Algorithm strings *)

Lemma split_space_nonempty (str : string) : split_space str <> [].
Proof.
  destruct str as [|c rest]; [done |]. simpl.
  destruct (Ascii.eqb c " "); [done |].
  by destruct (split_space rest).
Qed.

Lemma split_space_sep (a b : string) :
  split_space (a +:+ String " " b) = split_space a ++ split_space b.
Proof.
  induction a as [|c a IH]; [done |].
  change (String c a +:+ String " " b) with (String c (a +:+ String " " b)).
  cbn [split_space]. rewrite IH.
  destruct (Ascii.eqb c " "); [done |].
  pose proof (split_space_nonempty a).
  by destruct (split_space a).
Qed.

Lemma tokens_sep (a b : string) :
  tokens (a +:+ String " " b) = tokens a ++ tokens b.
Proof. unfold tokens. by rewrite split_space_sep, List.filter_app. Qed.

Lemma executeAlgorithm_sep (a b : string) (s : CubeState) :
  executeAlgorithm (a +:+ String " " b) s
  = executeAlgorithm b (executeAlgorithm a s).
Proof. unfold executeAlgorithm. by rewrite tokens_sep, foldl_app. Qed.

Lemma tokens_blank (str : string) : blank str = true -> tokens str = [].
Proof.
  unfold tokens. induction str as [|c rest IH]; [done |].
  simpl. intros [Hc Hrest]%andb_prop. rewrite Hc. simpl. by apply IH.
Qed.

(** Every piece [split(' ')] yields is free of spaces. *)
Lemma split_space_spaceFree_all (str : string) :
  Forall (fun m => spaceFree m = true) (split_space str).
Proof.
  induction str as [|c rest IH]; [by repeat constructor |].
  simpl. destruct (Ascii.eqb c " ") eqn:Hc; [by constructor |].
  destruct (split_space rest) as [|w ws].
  - constructor; [| constructor]. unfold spaceFree. simpl. by rewrite Hc.
  - apply Forall_cons in IH as [Hw Hws]. constructor; [| done].
    unfold spaceFree in *. simpl. by rewrite Hc.
Qed.

Lemma tokens_wellformed (str : string) :
  Forall (fun m => nonEmpty m = true /\ spaceFree m = true) (tokens str).
Proof.
  unfold tokens. pose proof (split_space_spaceFree_all str) as H.
  induction H as [|m l Hm _ IH]; [constructor |].
  simpl. destruct (nonEmpty m) eqn:Hne; [by constructor | done].
Qed.

(** X1.  [executeAlgorithm] does nothing on the empty string and on a
    string of spaces. *)
Theorem executeAlgorithm_blank (algorithm : string) (s : CubeState) :
  blank algorithm = true -> executeAlgorithm algorithm s = s.
Proof. intros H. unfold executeAlgorithm. by rewrite tokens_blank. Qed.

Lemma executeAlgorithm_blank_witness :
  blank "   " = true /\ executeAlgorithm "   " cubeF2 = cubeF2.
Proof.
  split; [reflexivity |]. apply (executeAlgorithm_blank "   " cubeF2).
  reflexivity.
Defined.

(** X2.  Two algorithms written after each other with a space between
    them act as the first followed by the second, whatever the strings. *)
Theorem executeAlgorithm_concat (a b : string) (s : CubeState) :
  executeAlgorithm (a +:+ " " +:+ b) s
  = executeAlgorithm b (executeAlgorithm a s).
Proof. apply executeAlgorithm_sep. Qed.

(** X3.  Executing the moves of a list one call at a time, as [nextStep]
    and the playback do, gives the state that one call on the joined list
    gives, as [prevStep] computes it; the entries may be any strings. *)
Theorem stepwise_is_joined (moves : list string) (s : CubeState) :
  foldl (fun acc mv => executeAlgorithm mv acc) s moves
  = executeAlgorithm (join moves) s.
Proof.
  revert s. induction moves as [|m moves IH]; intros s; [done |].
  destruct moves as [|m' moves]; [done |].
  change (join (m :: m' :: moves)) with (m +:+ String " " (join (m' :: moves))).
  rewrite executeAlgorithm_sep, <- IH. done.
Qed.

(** X4.  Splitting a joined list of tokens gives the list back, and what
    [split(' ').filter(m => m)] returns always is such a list: non-empty
    strings without a space. *)
Theorem tokens_join_roundtrip (algorithm : string) (moves : list string) :
  tokens (join (tokens algorithm)) = tokens algorithm
  /\ (Forall (fun m => nonEmpty m = true /\ spaceFree m = true) moves ->
      tokens (join moves) = moves).
Proof.
  split; [| apply tokens_join].
  apply tokens_join, tokens_wellformed.
Qed.

Lemma tokens_join_roundtrip_witness :
  tokens (join ["R"; "U'"; "y"; "F2"]) = ["R"; "U'"; "y"; "F2"].
Proof.
  apply (tokens_join_roundtrip "" ["R"; "U'"; "y"; "F2"]).
  repeat constructor.
Defined.

(** ** The engine on nine-facelet states *)

Lemma executeAlgorithm_nine (algorithm : string) (s : CubeState) :
  nine s -> nine (executeAlgorithm algorithm s).
Proof. intros H. by apply (runMoves_nine (tokens algorithm)). Qed.

(** X5.  Nine facelets on every face before an algorithm, nine facelets on
    every face after it, whatever the string. *)
Theorem executeAlgorithm_keeps_nine (algorithm : string) (s : CubeState) :
  nine s -> nine (executeAlgorithm algorithm s).
Proof. apply executeAlgorithm_nine. Qed.

Lemma executeAlgorithm_keeps_nine_witness :
  nine (executeAlgorithm "R U2 x F' " solvedState).
Proof.
  apply (executeAlgorithm_keeps_nine "R U2 x F' " solvedState).
  repeat constructor.
Defined.

(** ** Moves permute the stickers *)

Lemma filter_tally (v : jsval) (l : list jsval) :
  length (List.filter (fun c => c === v) l) = tally v l.
Proof.
  induction l as [|x l IH]; [done |].
  simpl. destruct (x === v); simpl; by rewrite IH.
Qed.

Lemma tally_app (v : jsval) (l1 l2 : list jsval) :
  tally v (l1 ++ l2) = tally v l1 + tally v l2.
Proof.
  induction l1 as [|x l1 IH]; [done |].
  simpl. rewrite IH. lia.
Qed.

Lemma countColor_tally (v : jsval) (s : CubeState) :
  countColor v s
  = tally v (f_up s) + tally v (f_down s) + tally v (f_front s)
    + tally v (f_back s) + tally v (f_left s) + tally v (f_right s).
Proof.
  unfold countColor, cells. rewrite filter_tally, !tally_app. lia.
Qed.

(** Evaluate a case of the [switch] on a state of 54 named facelets, then
    compare the two sums of indicators. *)
Ltac same_tally :=
  rewrite !countColor_tally;
  match goal with
  | |- context [?f (mkCube ?a ?b ?c ?d ?e ?g)] =>
      let r := eval vm_compute in (f (mkCube a b c d e g)) in
      change (f (mkCube a b c d e g)) with r
  end;
  cbn [tally foldr f_up f_down f_front f_back f_left f_right];
  repeat match goal with
  | |- context [if ?x === ?v then 1 else 0] =>
      generalize (if x === v then 1 else 0); intros ?
  end;
  lia.

Lemma countColor_cases (v : jsval) (s : CubeState) :
  nine s ->
  countColor v (caseF s) = countColor v s
  /\ countColor v (caseB s) = countColor v s
  /\ countColor v (caseU s) = countColor v s
  /\ countColor v (caseD s) = countColor v s
  /\ countColor v (caseL s) = countColor v s
  /\ countColor v (caseR s) = countColor v s.
Proof.
  intros H. nine_cells s H. repeat apply conj; same_tally.
Qed.

Lemma countColor_performMove (v : jsval) (mv : string) (s : CubeState) :
  nine s -> countColor v (performMove mv s) = countColor v s.
Proof.
  intros H. destruct (countColor_cases v s H) as (HF & HB & HU & HD & HL & HR).
  destruct (performMove_letter mv s) as [Hm|[Hm|[Hm|[Hm|[Hm|[Hm|Hm]]]]]];
    rewrite Hm; done.
Qed.

Lemma countColor_iter (v : jsval) (mv : string) (k : nat) (s : CubeState) :
  nine s -> countColor v (Nat.iter k (performMove mv) s) = countColor v s.
Proof.
  intros H. induction k as [|k IH]; [done |].
  simpl. rewrite countColor_performMove by by apply iter_nine. exact IH.
Qed.

Lemma countColor_executeMove (v : jsval) (m : string) (s : CubeState) :
  nine s -> countColor v (executeMove m s) = countColor v s.
Proof. intros H. destruct m; [done |]. by apply countColor_iter. Qed.

Lemma countColor_executeAlgorithm (v : jsval) (algorithm : string)
    (s : CubeState) :
  nine s -> countColor v (executeAlgorithm algorithm s) = countColor v s.
Proof.
  unfold executeAlgorithm. generalize (tokens algorithm). intros l.
  revert s. induction l as [|m l IH]; intros s H; [done |].
  simpl. rewrite IH by by apply executeMove_nine.
  by apply countColor_executeMove.
Qed.

(** X6.  An algorithm never changes how many stickers of a colour the cube
    has: [countColor] gives the same number before and after, for every
    colour and every string. *)
Theorem executeAlgorithm_keeps_counts (color : jsval) (algorithm : string)
    (s : CubeState) :
  nine s ->
  countColor color (executeAlgorithm algorithm s) = countColor color s.
Proof. apply countColor_executeAlgorithm. Qed.

Lemma executeAlgorithm_keeps_counts_witness :
  countColor (JString "W") (executeAlgorithm "R U F' D2 L B" cubeF2) = 9.
Proof.
  rewrite (executeAlgorithm_keeps_counts (JString "W") "R U F' D2 L B" cubeF2).
  - reflexivity.
  - repeat constructor.
Defined.

(** ** [_rotateFace] *)

(** X7.  On a face of nine facelets the counter-clockwise rotation undoes
    the clockwise one and the other way round, and four clockwise
    rotations give the face back. *)
Theorem rotateFace_roundtrip (n : FaceName) (s : CubeState) :
  length (faceOf s n) = 9 ->
  rotateFace n false (rotateFace n true s) = s
  /\ rotateFace n true (rotateFace n false s) = s
  /\ Nat.iter 4 (rotateFace n true) s = s.
Proof.
  intros H. destruct s as [fu fd ff fb fl fr].
  destruct n; simpl in H;
    match type of H with length ?a = 9 => list9 a H end;
    repeat apply conj; reflexivity.
Qed.

Lemma rotateFace_roundtrip_witness :
  length (faceOf cubeF2 right) = 9
  /\ rotateFace right false (rotateFace right true cubeF2) = cubeF2.
Proof.
  assert (H : length (faceOf cubeF2 right) = 9) by reflexivity.
  split; [exact H |].
  exact (proj1 (rotateFace_roundtrip right cubeF2 H)).
Defined.

Lemma set_length_in_range (a : list jsval) (i : nat) (v : jsval) :
  i < length a -> length (set a i v) = length a.
Proof.
  intros Hi. unfold set. destruct (decide (i < length a)); [| lia].
  apply length_insert.
Qed.

Lemma rotateCells_length (mapping : list nat) (a : list jsval) :
  9 <= length a -> length (rotateCells mapping a) = length a.
Proof.
  intros Hlen. unfold rotateCells.
  assert (Hfold : forall (l : list nat) (b : list jsval),
            Forall (fun i => i < length b) l ->
            length (foldl (fun acc i => set acc i (get a (mapping !!! i))) b l)
            = length b).
  { induction l as [|i l IH]; intros b Hl; [done |].
    apply Forall_cons in Hl as [Hi Hl]. simpl.
    rewrite IH; rewrite set_length_in_range by done; [done |].
    eapply Forall_impl; [exact Hl |]. by intros j. }
  apply Hfold. repeat constructor; lia.
Qed.

Lemma rotateCells_get (mapping : list nat) (a : list jsval) (i : nat) :
  i < 9 -> get (rotateCells mapping a) i = get a (mapping !!! i).
Proof.
  intros Hi. unfold rotateCells. cbn [foldl seq].
  do 9 (destruct i as [|i]; [by rewrite !get_set |]). lia.
Qed.

(** X8.  [_rotateFace] changes the array of the face it is given and no
    other, keeps the length of an array of nine or more, and moves the
    first nine entries by its table: entry [i] of the result is entry
    [mapping[i]] of the face as it was. *)
Theorem rotateFace_only_that_face (n n' : FaceName) (clockwise : bool)
    (s : CubeState) :
  (n' <> n -> faceOf (rotateFace n clockwise s) n' = faceOf s n')
  /\ (9 <= length (faceOf s n) ->
      length (faceOf (rotateFace n clockwise s) n) = length (faceOf s n))
  /\ (forall i, i < 9 ->
      (rotateFace n clockwise s).[n, i]
      = s.[n, (if clockwise then cwMapping else ccwMapping) !!! i]).
Proof.
  unfold facelet, rotateFace. rewrite !faceOf_withFace.
  destruct (decide (n = n)); [| done].
  split; [| split].
  - intros Hn. by destruct (decide (n = n')) as [->|].
  - apply rotateCells_length.
  - intros i Hi. by apply rotateCells_get.
Qed.

(** ** Face turns and the opposite face *)

Lemma faceOf_setFacelet_other (s : CubeState) (n n' : FaceName) (i : nat)
    (v : jsval) :
  n <> n' -> faceOf (setFacelet s n i v) n' = faceOf s n'.
Proof.
  intros Hn. unfold setFacelet. rewrite faceOf_withFace.
  by destruct (decide (n = n')).
Qed.

(** X9.  A turn of a face does not touch the opposite face: after [F] the
    back array is what it was, and so on for the six faces, on any state. *)
Theorem turn_keeps_opposite_face (s : CubeState) :
  faceOf (performMove "F" s) back = faceOf s back
  /\ faceOf (performMove "B" s) front = faceOf s front
  /\ faceOf (performMove "U" s) down = faceOf s down
  /\ faceOf (performMove "D" s) up = faceOf s up
  /\ faceOf (performMove "L" s) right = faceOf s right
  /\ faceOf (performMove "R" s) left = faceOf s left.
Proof.
  repeat apply conj;
    match goal with
    | |- faceOf (performMove ?m s) _ = _ =>
        change (performMove m s) with
          ltac:(let r := eval cbv beta iota delta
                           [performMove String.eqb Ascii.eqb Bool.eqb]
                         in (performMove m s) in exact r)
    end;
    unfold caseF, caseB, caseU, caseD, caseL, caseR; cbv zeta;
    unfold run; cbn [foldl]; unfold assign, store; cbn [fst snd];
    rewrite !faceOf_setFacelet_other by done;
    unfold rotateFace; rewrite faceOf_withFace; done.
Qed.

(** X10.  Turns of opposite faces commute: [U] and [D], [F] and [B], [L]
    and [R], on every state with nine facelets a face. *)
Theorem opposite_turns_commute (s : CubeState) :
  nine s ->
  performMove "U" (performMove "D" s) = performMove "D" (performMove "U" s)
  /\ performMove "F" (performMove "B" s) = performMove "B" (performMove "F" s)
  /\ performMove "L" (performMove "R" s) = performMove "R" (performMove "L" s).
Proof.
  intros H. nine_cells s H. repeat apply conj; vm_compute; reflexivity.
Qed.

Lemma opposite_turns_commute_witness :
  nine cubeF2
  /\ performMove "U" (performMove "D" cubeF2)
     = performMove "D" (performMove "U" cubeF2).
Proof.
  assert (H : nine cubeF2) by repeat constructor.
  split; [exact H |].
  exact (proj1 (opposite_turns_commute cubeF2 H)).
Defined.

(** ** [validateCubeState] *)

(** Decide the comparisons between colour codes that are written out. *)
Ltac decide_codes :=
  repeat match goal with
  | |- context [JString ?a === JString ?b] =>
      let r := eval vm_compute in (JString a === JString b) in
      change (JString a === JString b) with r
  end.

(** A value is one of the six colour codes or has a property name that is
    none of them. *)
Lemma colour_cases (x : jsval) :
  x = JString "W" \/ x = JString "Y" \/ x = JString "R"
  \/ x = JString "O" \/ x = JString "G" \/ x = JString "B"
  \/ Forall (fun k => String.eqb k (keyOf x) = false) colourCodes.
Proof.
  unfold colourCodes.
  destruct x as [| |c];
    [do 6 right; by repeat constructor .. |].
  simpl.
  destruct (String.eqb_spec "W" c) as [<-|]; [tauto |].
  destruct (String.eqb_spec "Y" c) as [<-|]; [tauto |].
  destruct (String.eqb_spec "R" c) as [<-|]; [tauto |].
  destruct (String.eqb_spec "O" c) as [<-|]; [tauto |].
  destruct (String.eqb_spec "G" c) as [<-|]; [tauto |].
  destruct (String.eqb_spec "B" c) as [<-|]; [tauto |].
  do 6 right. repeat constructor; by apply String.eqb_neq.
Qed.

Lemma other_not_code (x : jsval) (k : string) :
  Forall (fun k => String.eqb k (keyOf x) = false) colourCodes ->
  k ∈ colourCodes -> (x === JString k) = false.
Proof.
  intros Hother Hk. unfold strict_eq. apply bool_decide_eq_false_2.
  intros ->. rewrite Forall_forall in Hother.
  specialize (Hother k Hk). simpl in Hother.
  by rewrite String.eqb_refl in Hother.
Qed.

Lemma increment_length (k : string) (counts : countsObject) :
  length (increment k counts) = length counts.
Proof.
  induction counts as [|[k' v] rest IH]; [done |].
  simpl. destruct (String.eqb k' k); simpl; by rewrite ?IH.
Qed.

Lemma countsWith_ext (f g : string -> nat) (extras : countsObject) :
  (forall k, k ∈ colourCodes -> f k = g k) ->
  countsWith f extras = countsWith g extras.
Proof.
  intros H. unfold countsWith.
  rewrite !(H _) by (unfold colourCodes; repeat constructor). done.
Qed.

(** One round of the counting loop. *)
Lemma countOne_countsWith (inherits : string -> bool) (n : string -> nat)
    (extras : countsObject) (x : jsval) :
  exists extras',
    countOne inherits (countsWith n extras) x
    = countsWith (fun k => (if x === JString k then 1 else 0) + n k) extras'
    /\ length extras <= length extras'
    /\ (colourTally [x] = 1 -> extras' = extras).
Proof.
  destruct (colour_cases x) as [->|[->|[->|[->|[->|[->|Hother]]]]]].
  1-6: (exists extras; unfold countsWith; decide_codes; by repeat split).
  assert (Hzero : forall k, k ∈ colourCodes ->
            (if x === JString k then 1 else 0) + n k = n k).
  { intros k Hk. by rewrite other_not_code. }
  assert (Heq : forall e,
            countsWith (fun k => (if x === JString k then 1 else 0) + n k) e
            = countsWith n e) by (intros e; by apply countsWith_ext).
  assert (Hnone : colourTally [x] = 0).
  { unfold colourTally, tally. cbn [foldr].
    rewrite !other_not_code by (done || (unfold colourCodes; repeat constructor)).
    done. }
  unfold colourCodes in Hother. rewrite !Forall_cons in Hother.
  destruct Hother as (HW & HY & HR & HO & HG & HB & _).
  assert (Hstep : countOne inherits (countsWith n extras) x
            = countsWith n
                match ownProperty (keyOf x) extras with
                | Some _ => increment (keyOf x) extras
                | None => if inherits (keyOf x)
                          then extras ++ [(keyOf x, None)] else extras
                end).
  { unfold countOne, countsWith. cbn [ownProperty increment app].
    rewrite HW, HY, HR, HO, HG, HB.
    destruct (ownProperty (keyOf x) extras) as [v|]; [done |].
    by destruct (inherits (keyOf x)). }
  rewrite Hstep. eexists. rewrite Heq. split; [reflexivity |].
  split; [| lia].
  destruct (ownProperty (keyOf x) extras) as [v|].
  - by rewrite increment_length.
  - destruct (inherits (keyOf x)); [rewrite length_app |]; simpl; lia.
Qed.

Lemma colourTally_cons (x : jsval) (l : list jsval) :
  colourTally (x :: l) = colourTally [x] + colourTally l
  /\ colourTally [x] <= 1.
Proof.
  unfold colourTally, tally. cbn [foldr]. split; [lia |].
  destruct (colour_cases x) as [->|[->|[->|[->|[->|[->|Hother]]]]]].
  1-6: (decide_codes; simpl; lia).
  rewrite !other_not_code by (done || (unfold colourCodes; repeat constructor)).
  simpl. lia.
Qed.

Lemma colourTally_bound (l : list jsval) : colourTally l <= length l.
Proof.
  induction l as [|x l IH]; [done |].
  destruct (colourTally_cons x l) as [-> Hx]. simpl. lia.
Qed.

(** What the counting loop leaves in [counts]: under the six colours the
    numbers of facelets equal to them, and after those whatever the
    increments of inherited names have added, which is nothing when every
    facelet is one of the six. *)
Lemma counting_loop (inherits : string -> bool) (l : list jsval)
    (n : string -> nat) (extras : countsObject) :
  exists extras',
    foldl (countOne inherits) (countsWith n extras) l
    = countsWith (fun k => tally (JString k) l + n k) extras'
    /\ length extras <= length extras'
    /\ (colourTally l = length l -> extras' = extras).
Proof.
  revert n extras. induction l as [|x l IH]; intros n extras.
  - exists extras. by repeat split.
  - cbn [foldl].
    destruct (countOne_countsWith inherits n extras x)
      as (extras1 & -> & Hlen1 & Hsame1).
    destruct (IH (fun k => (if x === JString k then 1 else 0) + n k) extras1)
      as (extras' & -> & Hlen & Hsame).
    exists extras'. split; [| split].
    + apply countsWith_ext. intros k _. unfold tally. cbn [foldr]. lia.
    + lia.
    + destruct (colourTally_cons x l) as [-> Hx].
      pose proof (colourTally_bound l). simpl. intros Hfull.
      rewrite Hsame by lia. apply Hsame1. lia.
Qed.

Lemma tally_cells (v : jsval) (s : CubeState) :
  tally v (cells s) = countColor v s.
Proof. unfold countColor. by rewrite filter_tally. Qed.

Lemma nine_requiredFaces (s : CubeState) :
  nine s <->
  forallb (fun n => bool_decide (length (faceOf s n) = 9)) requiredFaces = true.
Proof.
  unfold nine, faceNames, requiredFaces. cbn [forallb].
  rewrite !Forall_cons, !andb_true_iff, !bool_decide_eq_true.
  rewrite Forall_nil. tauto.
Qed.

Lemma nine_54 (s : CubeState) : nine s -> length (cells s) = 54.
Proof.
  intros H. unfold cells. rewrite !length_app.
  unfold nine, faceNames in H. rewrite !Forall_cons in H. simpl in H. lia.
Qed.

Lemma validateCubeState_spec (inherits : string -> bool) (s : CubeState) :
  validateCubeState inherits s = true <->
  nine s /\ Forall (fun c => countColor (JString c) s = 9) colourCodes.
Proof.
  unfold validateCubeState.
  destruct (forallb _ requiredFaces) eqn:Hfaces; cbn [negb].
  - apply nine_requiredFaces in Hfaces.
    destruct (counting_loop inherits (cells s) (fun _ => 0) [])
      as (extras' & Hfold & _ & Hsame).
    change (countsWith (fun _ => 0) []) with initialCounts in Hfold.
    rewrite Hfold. pose proof (nine_54 s Hfaces) as Hlen.
    unfold colourTally in Hsame. rewrite !tally_cells in Hsame.
    unfold countsWith, colourCodes. rewrite !tally_cells, !Nat.add_0_r.
    rewrite !Forall_cons, Forall_nil.
    cbn [forallb app snd]. rewrite !andb_true_iff, !bool_decide_eq_true.
    split.
    + intros (HW & HY & HR & HO & HG & HB & _).
      split; [done |]. repeat split; congruence.
    + intros (_ & HW & HY & HR & HO & HG & HB & _).
      rewrite Hsame by lia. cbn [forallb].
      repeat split; congruence.
  - split; [done |]. intros [Hnine _].
    apply nine_requiredFaces in Hnine. congruence.
Qed.

(** X11.  [validateCubeState] accepts exactly the states that have nine
    facelets on every face and under each of W, Y, R, O, G, B nine facelets
    equal to it, as [countColor] counts them; what the [counts] object
    inherits makes no difference. *)
Theorem validateCubeState_accepts (inherits : string -> bool)
    (s : CubeState) :
  validateCubeState inherits s = true <->
  nine s /\ Forall (fun c => countColor (JString c) s = 9) colourCodes.
Proof. apply validateCubeState_spec. Qed.

Lemma colourTally_full (l : list jsval) :
  colourTally l = length l ->
  Forall (fun v => v ∈ JString <$> colourCodes) l.
Proof.
  induction l as [|x l IH]; [constructor |].
  destruct (colourTally_cons x l) as [-> Hx].
  pose proof (colourTally_bound l). simpl. intros Hfull.
  constructor; [| apply IH; lia].
  assert (Hone : colourTally [x] = 1) by lia.
  destruct (colour_cases x) as [->|[->|[->|[->|[->|[->|Hother]]]]]].
  1-6: (unfold colourCodes; simpl; repeat constructor).
  exfalso. unfold colourTally, tally in Hone. cbn [foldr] in Hone.
  rewrite !other_not_code in Hone
    by (done || (unfold colourCodes; repeat constructor)).
  simpl in Hone. lia.
Qed.

(** X12.  A state that [validateCubeState] accepts has no facelet other
    than the six colour codes. *)
Theorem validated_state_is_coloured (inherits : string -> bool)
    (s : CubeState) :
  validateCubeState inherits s = true ->
  Forall (fun v => v ∈ JString <$> colourCodes) (cells s).
Proof.
  intros (Hnine & Hcounts)%validateCubeState_spec.
  unfold colourCodes in Hcounts. rewrite !Forall_cons in Hcounts.
  destruct Hcounts as (HW & HY & HR & HO & HG & HB & _).
  apply colourTally_full. rewrite (nine_54 s Hnine).
  unfold colourTally. rewrite !tally_cells. lia.
Qed.

Lemma validated_state_is_coloured_witness :
  validateCubeState (fun k => String.eqb k "toString") cubeF2 = true
  /\ Forall (fun v => v ∈ JString <$> colourCodes) (cells cubeF2).
Proof.
  assert (H : validateCubeState (fun k => String.eqb k "toString") cubeF2
              = true) by reflexivity.
  split; [exact H |].
  exact (validated_state_is_coloured _ cubeF2 H).
Defined.

(** X13.  A valid state stays valid under every algorithm, so every
    scramble of the solved cube, as [generateRandomScramble] builds one,
    passes [validateCubeState]. *)
Theorem validateCubeState_after_algorithm (inherits : string -> bool)
    (algorithm : string) (s : CubeState) :
  validateCubeState inherits s = true ->
  validateCubeState inherits (executeAlgorithm algorithm s) = true
  /\ validateCubeState inherits (executeAlgorithm algorithm solvedState) = true.
Proof.
  assert (Hkeep : forall s', validateCubeState inherits s' = true ->
            validateCubeState inherits (executeAlgorithm algorithm s') = true).
  { intros s' (Hnine & Hcounts)%validateCubeState_spec.
    apply validateCubeState_spec. split; [by apply executeAlgorithm_nine |].
    eapply Forall_impl; [exact Hcounts |]. intros c Hc. simpl.
    by rewrite countColor_executeAlgorithm. }
  intros Hs. split; [by apply Hkeep |].
  apply Hkeep, validateCubeState_spec.
  split; repeat constructor.
Qed.

Lemma validateCubeState_after_algorithm_witness :
  validateCubeState (fun _ => false) cubeF2 = true
  /\ validateCubeState (fun _ => false) (executeAlgorithm "R U' L2" cubeF2)
     = true.
Proof.
  assert (H : validateCubeState (fun _ => false) cubeF2 = true) by reflexivity.
  split; [exact H |].
  exact (proj1 (validateCubeState_after_algorithm _ "R U' L2" cubeF2 H)).
Defined.

(** ** The undo history *)

Lemma slice0_prefix {A} (arr : list A) (i : Z) :
  (-1 <= i < Z.of_nat (length arr))%Z ->
  slice0 arr (i + 1) = take (Z.to_nat (i + 1)) arr
  /\ length (slice0 arr (i + 1)) = Z.to_nat (i + 1).
Proof.
  intros Hi. unfold slice0.
  destruct (Z.ltb_spec (i + 1) 0) as [Hneg|_]; [lia |].
  split; [done |]. rewrite length_take. lia.
Qed.

(** X14.  [saveState] keeps the history within its bounds (at most
    [MAX_HISTORY] entries, the index on an entry or -1 before the first),
    leaves the index on the last entry, which is a copy of the current
    state, and leaves nothing to redo. *)
Theorem saveState_history (a : App) :
  historyOK a ->
  historyOK (saveState a)
  /\ historyIndex (saveState a)
     = (Z.of_nat (length (stateHistory (saveState a))) - 1)%Z
  /\ last (stateHistory (saveState a)) = Some (jsonCopy (cubeState a))
  /\ cubeState (saveState a) = cubeState a
  /\ redo (saveState a) = Some (saveState a).
Proof.
  intros [Hidx Hlen]. unfold MAX_HISTORY in Hlen.
  destruct (slice0_prefix (stateHistory a) (historyIndex a) Hidx)
    as [Hslice Hlen0].
  assert (Hredo : forall b : App,
            historyIndex b = (Z.of_nat (length (stateHistory b)) - 1)%Z ->
            redo b = Some b).
  { intros b Hb. unfold redo.
    destruct (Z.ltb_spec (historyIndex b)
                (Z.of_nat (length (stateHistory b)) - 1)); [lia | done]. }
  unfold saveState, historyOK, MAX_HISTORY.
  set (history := slice0 (stateHistory a) (historyIndex a + 1)
                  ++ [jsonCopy (cubeState a)]).
  assert (Hh : length history = Z.to_nat (historyIndex a + 1) + 1).
  { unfold history. rewrite length_app, Hlen0. simpl. lia. }
  assert (Hlast : last history = Some (jsonCopy (cubeState a))).
  { unfold history. apply last_snoc. }
  clearbody history.
  destruct (decide (50 < length history)) as [Hbig|Hsmall]; cbn [cubeState
    stateHistory historyIndex].
  - assert (Htail : length (tail history) = length history - 1).
    { destruct history; simpl; lia. }
    assert (Hlast' : last (tail history) = Some (jsonCopy (cubeState a))).
    { destruct history as [|x [|y h]]; simpl in *; [lia | lia | done]. }
    repeat split; try lia; [done |].
    apply Hredo. simpl. lia.
  - repeat split; try lia; [done |].
    apply Hredo. simpl. lia.
Qed.

Lemma saveState_history_witness :
  let a := {| cubeState := cubeF2; stateHistory := [solvedState];
              historyIndex := 0 |} in
  historyOK a
  /\ stateHistory (saveState a) = [solvedState; cubeF2]
  /\ historyIndex (saveState a) = 1%Z.
Proof.
  intros a.
  assert (H : historyOK a) by (unfold historyOK, MAX_HISTORY; simpl; lia).
  destruct (saveState_history a H) as (_ & Hi & _).
  split; [exact H |]. split; [reflexivity | exact Hi].
Defined.

Lemma historyEntry_in_range (a : App) (i : Z) :
  (0 <= i < Z.of_nat (length (stateHistory a)))%Z ->
  exists s, stateHistory a !! Z.to_nat i = Some s
            /\ historyEntry a i = Some (jsonCopy s).
Proof.
  intros Hi. unfold historyEntry.
  destruct (Z.ltb_spec i 0); [lia |].
  destruct (lookup_lt_is_Some_2 (stateHistory a) (Z.to_nat i)) as [s Hs]; [lia |].
  exists s. by rewrite Hs.
Qed.

(** X15.  Within the bounds of the history [undo] and [redo] never fail,
    keep the bounds and the entries, and move the index by at most one;
    and a [redo] after an [undo] that moved is back on the entry the index
    was on, with a copy of that entry as the current state. *)
Theorem undo_redo_history (a : App) :
  historyOK a ->
  (exists a1, undo a = Some a1 /\ historyOK a1
              /\ stateHistory a1 = stateHistory a
              /\ (historyIndex a - 1 <= historyIndex a1 <= historyIndex a)%Z)
  /\ (exists a2, redo a = Some a2 /\ historyOK a2
                 /\ stateHistory a2 = stateHistory a
                 /\ (historyIndex a <= historyIndex a2 <= historyIndex a + 1)%Z)
  /\ ((0 < historyIndex a)%Z ->
      exists a1 a2 s,
        undo a = Some a1 /\ redo a1 = Some a2
        /\ stateHistory a !! Z.to_nat (historyIndex a) = Some s
        /\ a2 = {| cubeState := jsonCopy s; stateHistory := stateHistory a;
                   historyIndex := historyIndex a |}).
Proof.
  intros [Hidx Hlen].
  assert (Hundo : (0 < historyIndex a)%Z ->
            exists s, stateHistory a !! Z.to_nat (historyIndex a - 1) = Some s
              /\ undo a = Some {| cubeState := jsonCopy s;
                                  stateHistory := stateHistory a;
                                  historyIndex := historyIndex a - 1 |}).
  { intros Hpos. unfold undo.
    destruct (Z.ltb_spec 0 (historyIndex a)); [| lia].
    destruct (historyEntry_in_range a (historyIndex a - 1)) as (s & Hs & ->);
      [lia |]. by exists s. }
  assert (Hredo : forall b : App,
            (-1 <= historyIndex b)%Z ->
            (historyIndex b < Z.of_nat (length (stateHistory b)) - 1)%Z ->
            exists s, stateHistory b !! Z.to_nat (historyIndex b + 1) = Some s
              /\ redo b = Some {| cubeState := jsonCopy s;
                                  stateHistory := stateHistory b;
                                  historyIndex := historyIndex b + 1 |}).
  { intros b Hlow Hlt. unfold redo.
    destruct (Z.ltb_spec (historyIndex b)
                (Z.of_nat (length (stateHistory b)) - 1)); [| lia].
    destruct (historyEntry_in_range b (historyIndex b + 1)) as (s & Hs & ->);
      [lia |]. by exists s. }
  split; [| split].
  - destruct (decide (0 < historyIndex a)%Z) as [Hpos|Hnot].
    + destruct (Hundo Hpos) as (s & _ & ->). eexists. split; [done |].
      unfold historyOK. simpl. repeat split; lia.
    + exists a. unfold undo.
      destruct (Z.ltb_spec 0 (historyIndex a)); [lia |].
      unfold historyOK. repeat split; (done || lia).
  - destruct (decide (historyIndex a
                      < Z.of_nat (length (stateHistory a)) - 1)%Z) as [Hlt|Hnot].
    + destruct (Hredo a) as (s & _ & ->); [lia | done |].
      eexists. split; [done |].
      unfold historyOK. simpl. repeat split; lia.
    + exists a. unfold redo.
      destruct (Z.ltb_spec (historyIndex a)
                  (Z.of_nat (length (stateHistory a)) - 1)); [lia |].
      unfold historyOK. repeat split; (done || lia).
  - intros Hpos. destruct (Hundo Hpos) as (s1 & _ & Hu).
    rewrite Hu. eexists.
    destruct (Hredo {| cubeState := jsonCopy s1; stateHistory := stateHistory a;
                       historyIndex := historyIndex a - 1 |})
      as (s & Hs & Hr); [simpl; lia | simpl; lia |].
    simpl in Hs, Hr. replace (historyIndex a - 1 + 1)%Z with (historyIndex a)
      in Hs, Hr by lia.
    exists {| cubeState := jsonCopy s; stateHistory := stateHistory a;
              historyIndex := historyIndex a |}, s.
    done.
Qed.

Lemma undo_redo_history_witness :
  let a := {| cubeState := cubeF2; stateHistory := [solvedState; cubeF2];
              historyIndex := 1 |} in
  historyOK a
  /\ exists a1, undo a = Some a1 /\ cubeState a1 = solvedState.
Proof.
  intros a.
  assert (H : historyOK a) by (unfold historyOK, MAX_HISTORY; simpl; lia).
  destruct (undo_redo_history a H) as ((a1 & Hu & _) & _).
  split; [exact H |]. exists a1. split; [exact Hu |].
  vm_compute in Hu. by injection Hu as <-.
Defined.

(** ** The sticker editor *)

Lemma tally_insert (d : string) (a : list jsval) (i : nat) (x : jsval) :
  tally (JString d) (set a i x) + (if get a i === JString d then 1 else 0)
  = tally (JString d) a + (if x === JString d then 1 else 0).
Proof.
  unfold set, get. destruct (decide (i < length a)) as [Hi|Hi].
  - revert i Hi. induction a as [|y a IH]; intros i Hi; [simpl in Hi; lia |].
    destruct i as [|i]; simpl.
    + lia.
    + simpl in Hi. specialize (IH i ltac:(lia)). simpl in IH. lia.
  - rewrite lookup_ge_None_2 by lia. cbn [default].
    replace (JUndefined === JString d) with false by done.
    rewrite !tally_app.
    assert (Hrep : forall k, tally (JString d) (replicate k JUndefined) = 0).
    { induction k as [|k IH]; [done |]. simpl. by rewrite IH. }
    rewrite Hrep. simpl. lia.
Qed.

Lemma countColor_setFacelet (d : string) (s : CubeState) (n : FaceName)
    (i : nat) (x : jsval) :
  countColor (JString d) (setFacelet s n i x)
  + (if s.[n, i] === JString d then 1 else 0)
  = countColor (JString d) s + (if x === JString d then 1 else 0).
Proof.
  rewrite !countColor_tally. unfold facelet, setFacelet.
  pose proof (tally_insert d (faceOf s n) i x) as H.
  destruct s as [fu fd ff fb fl fr], n; simpl in *; lia.
Qed.

(** X16.  A click in the editor never changes a centre, and it never
    takes a colour above nine: a colour code that was on nine facelets or
    fewer before the click is on nine or fewer after it. *)
Theorem stickerClick_keeps_limits (faceName : FaceName) (index : nat)
    (currentColor : jsval) (a : App) (n : FaceName) (d : string) :
  (cubeState (stickerClick faceName index currentColor a)).[n, 4]
  = (cubeState a).[n, 4]
  /\ (countColor (JString d) (cubeState a) <= 9 ->
      countColor (JString d)
        (cubeState (stickerClick faceName index currentColor a)) <= 9).
Proof.
  unfold stickerClick.
  destruct (decide (index = 4)) as [->|Hindex]; [done |].
  destruct (falsy currentColor); [done |].
  assert (Hsave : cubeState (saveState a) = cubeState a).
  { unfold saveState. by destruct (decide _). }
  destruct (bool_decide _ && _) eqn:Hguard; [done |].
  cbn [cubeState]. rewrite Hsave. split.
  - by apply facelet_setFacelet_other.
  - intros Hd.
    pose proof (countColor_setFacelet d (cubeState a) faceName index
                  currentColor) as Hset.
    destruct (currentColor === JString d) eqn:Hcur; [| lia].
    apply bool_decide_eq_true in Hcur as ->.
    apply andb_false_iff in Hguard as [Hcount|Hold].
    + apply bool_decide_eq_false in Hcount.
      destruct ((cubeState a).[faceName, index] === JString d); lia.
    + unfold strict_ne in Hold. apply negb_false_iff in Hold.
      rewrite Hold in *. lia.
Qed.

(** X17.  The click is refused, with the state and the history as they
    were, on a centre, without an active colour, and for a colour that is
    already on nine other facelets; otherwise the clicked facelet takes the
    colour. *)
Theorem stickerClick_outcome (faceName : FaceName) (index : nat)
    (currentColor : jsval) (a : App) :
  let full :=
    9 <= countColor currentColor (cubeState a)
    /\ (cubeState a).[faceName, index] <> currentColor in
  (index = 4 \/ falsy currentColor = true \/ full ->
   stickerClick faceName index currentColor a = a)
  /\ (index <> 4 -> falsy currentColor = false -> ~ full ->
      (cubeState (stickerClick faceName index currentColor a))
        .[faceName, index] = currentColor).
Proof.
  intros full. unfold stickerClick. split.
  - intros Hrefused.
    destruct (decide (index = 4)); [done |].
    destruct (falsy currentColor); [done |].
    destruct Hrefused as [?|[?|[Hcount Hold]]]; [done .. |].
    assert (((cubeState a).[faceName, index] === currentColor) = false) as Hne
      by by apply bool_decide_eq_false_2.
    unfold strict_ne. rewrite Hne. simpl.
    rewrite bool_decide_eq_true_2 by lia. done.
  - intros Hindex Hcolor Hfree.
    destruct (decide (index = 4)); [done |]. rewrite Hcolor.
    destruct (bool_decide _ && _) eqn:Hguard.
    + exfalso. apply Hfree. apply andb_prop in Hguard as [Hcount Hold].
      apply bool_decide_eq_true in Hcount.
      unfold strict_ne in Hold. apply negb_true_iff in Hold.
      apply bool_decide_eq_false in Hold.
      split; [| done].
      destruct ((cubeState a).[faceName, index] === currentColor) eqn:E; [| lia].
      by apply bool_decide_eq_true in E.
    + cbn [cubeState]. unfold facelet, setFacelet.
      rewrite faceOf_withFace. destruct (decide (faceName = faceName)); [| done].
      rewrite get_set. by destruct (decide (index = index)).
Qed.

(** ** [analyzeSolution] *)

Lemma qtm_fold (solution : list string) (q : nat) :
  foldl (fun qtm mv => if includes mv "2"%char then qtm + 2 else qtm + 1)
        q solution
  = q + qtm (analyzeSolution solution).
Proof.
  unfold analyzeSolution. cbn [qtm].
  revert q. induction solution as [|m l IH]; intros q; [simpl; lia |].
  cbn [foldl]. rewrite IH. rewrite (IH (if includes m "2" then _ else _)).
  destruct (includes m "2"); lia.
Qed.

Lemma qtm_cons (m : string) (l : list string) :
  qtm (analyzeSolution (m :: l))
  = (if includes m "2"%char then 2 else 1) + qtm (analyzeSolution l).
Proof.
  unfold analyzeSolution at 1. cbn [qtm foldl]. rewrite qtm_fold.
  destruct (includes m "2"); lia.
Qed.

(** X18.  [analyzeSolution]: the half-turn count is the length, the
    quarter-turn count lies between the length and twice the length and is
    additive over concatenation, and the estimated time is half the length
    rounded up. *)
Theorem analyzeSolution_bounds (a b : list string) :
  htm (analyzeSolution a) = length a
  /\ htm (analyzeSolution a) <= qtm (analyzeSolution a)
     <= 2 * htm (analyzeSolution a)
  /\ qtm (analyzeSolution (a ++ b))
     = qtm (analyzeSolution a) + qtm (analyzeSolution b)
  /\ htm (analyzeSolution a) <= 2 * estimatedTime (analyzeSolution a)
     <= htm (analyzeSolution a) + 1.
Proof.
  split; [done |]. split; [| split].
  - induction a as [|m l IH]; [simpl; lia |].
    rewrite qtm_cons. change (htm (analyzeSolution (m :: l))) with (S (length l)).
    change (htm (analyzeSolution l)) with (length l) in IH.
    destruct (includes m "2"); lia.
  - induction a as [|m l IH]; [done |].
    rewrite <- app_comm_cons, !qtm_cons, IH. lia.
  - change (estimatedTime (analyzeSolution a)) with ((length a + 1) / 2).
    change (htm (analyzeSolution a)) with (length a).
    pose proof (Nat.div_mod_eq (length a + 1) 2).
    pose proof (Nat.mod_upper_bound (length a + 1) 2). lia.
Qed.

(** ** The stickers of the 3D cube *)

(** X19.  [_mapStateToStickers] puts every facelet on exactly one sticker:
    the stickers it gives the cubies on a face are the nine entries of that
    face's array, each index from 0 to 8 once, and the 26 cubies carry 54
    stickers. *)
Theorem stickers_cover_facelets (s : CubeState) (n : FaceName) :
  (exists order : list nat,
     stickersOn n s = (fun i => s.[n, i]) <$> order
     /\ NoDup order /\ length order = 9 /\ Forall (fun i => i < 9) order)
  /\ length (mapStateToStickers s) = 26
  /\ length (mjoin ((fun c : string * list (FaceName * jsval) => c.2)
                      <$> mapStateToStickers s)) = 54.
Proof.
  split; [| by split].
  exists (match n with
          | up => [8; 6; 2; 0; 7; 1; 5; 3; 4]
          | back | left => [0; 2; 6; 8; 1; 7; 3; 5; 4]
          | down | front | right => [2; 0; 8; 6; 1; 7; 5; 3; 4]
          end).
  destruct n; (split; [reflexivity |]);
    (split; [| split; [reflexivity | repeat constructor; lia]]);
    apply NoDup_ListNoDup; repeat constructor; simpl; lia.
Qed.

(** ** The solution log *)

Lemma cur_execute_allocated (moves : string) (w : world) :
  cubeAllocated w ->
  cur (execute moves w).2 = executeAlgorithm moves (cur w)
  /\ cubeAllocated (execute moves w).2.
Proof.
  intros Hw. rewrite cur_execute. unfold cubeAllocated in *.
  destruct (decide _); [| done]. split; [done |].
  unfold execute, CubeModel_executeAlgorithm. simpl. by rewrite length_insert.
Qed.

Lemma newCubeSolverJS_allocated (h : heap) (cubeModel : CubeModel) :
  cubeAllocated (newCubeSolverJS h cubeModel).
Proof.
  unfold cubeAllocated.
  destruct (newCubeSolverJS_objects h cubeModel) as (-> & -> & _).
  rewrite length_app. simpl. lia.
Qed.

(** X20.  At every point of a solve, returned or still running, the
    solution log replayed on the copy the solver started from gives the
    solver's cube as it is then. *)
Theorem log_replays_to_cube (fuel : nat) (h : heap) (cubeModel : CubeModel)
    (s : CubeState) :
  h !! state cubeModel = Some s ->
  let after := (solve fuel (newCubeSolverJS h cubeModel)).2 in
  replay (this_solution after) (jsonCopy s) = cur after.
Proof.
  intros Hs after.
  pose (I := fun w : world =>
               cubeAllocated w
               /\ Forall (fun m => nonEmpty m = true /\ spaceFree m = true)
                    (this_solution w)
               /\ runMoves (this_solution w) (jsonCopy s) = cur w).
  assert (HI : forall moves, preserves I (execute moves)).
  { intros moves w (Hw & Htok & Hrun).
    destruct (cur_execute_allocated moves w Hw) as [Hcur Hw'].
    split; [done |]. split.
    - simpl. apply Forall_app. split; [done | apply tokens_wellformed].
    - rewrite Hcur. simpl. rewrite runMoves_app, Hrun. done. }
  destruct (preserves_solve I HI fuel (newCubeSolverJS h cubeModel))
    as (_ & Htok & Hrun).
  { split; [apply newCubeSolverJS_allocated |].
    destruct (newCubeSolverJS_objects h cubeModel) as (_ & _ & ->).
    split; [constructor |]. by rewrite (cur_newCubeSolverJS h cubeModel s). }
  fold after in Htok, Hrun. rewrite <- Hrun.
  unfold replay, executeAlgorithm, runMoves. by rewrite tokens_join.
Qed.

Lemma log_replays_to_cube_witness :
  [cubeF2] !! 0 = Some cubeF2
  /\ replay
       (this_solution (solve 7 (newCubeSolverJS [cubeF2] {| state := 0 |})).2)
       (jsonCopy cubeF2)
     = cur (solve 7 (newCubeSolverJS [cubeF2] {| state := 0 |})).2.
Proof.
  assert (H : [cubeF2] !! 0 = Some cubeF2) by reflexivity.
  split; [exact H |].
  exact (log_replays_to_cube 7 [cubeF2] {| state := 0 |} cubeF2 H).
Defined.

Lemma appendsOnly_preserves {A} (m : M A) :
  (forall I : world -> Prop,
     (forall moves, preserves I (execute moves)) -> preserves I m) ->
  appendsOnly m.
Proof.
  intros Hm w.
  apply (Hm (fun w' => exists ext, this_solution w' = this_solution w ++ ext)).
  - intros moves w' [ext Hext]. exists (ext ++ tokens moves).
    simpl. by rewrite Hext, app_assoc.
  - exists []. by rewrite app_nil_r.
Qed.

(** X21.  Every phase, and [solve] as a whole, only ever appends to the
    solution log: what was logged before is a prefix of what is logged
    after, whether the phase returns or not. *)
Theorem phases_append_only (fuel : nat) :
  appendsOnly solveWhiteCross /\ appendsOnly (solveWhiteCorners fuel)
  /\ appendsOnly (solveMiddleLayer fuel) /\ appendsOnly solveYellowCross
  /\ appendsOnly (positionYellowEdges fuel)
  /\ appendsOnly (positionYellowCorners fuel)
  /\ appendsOnly (orientYellowCorners fuel)
  /\ appendsOnly (alignTopFace fuel) /\ appendsOnly areCornersPositioned
  /\ appendsOnly (solve fuel).
Proof.
  repeat apply conj; apply appendsOnly_preserves; intros I HI.
  - by apply preserves_solveWhiteCross.
  - by apply preserves_solveWhiteCorners.
  - by apply preserves_solveMiddleLayer.
  - by apply preserves_solveYellowCross.
  - by apply preserves_positionYellowEdges.
  - by apply preserves_positionYellowCorners.
  - by apply preserves_orientYellowCorners.
  - by apply preserves_alignTopFace.
  - by apply preserves_areCornersPositioned.
  - by apply preserves_solve.
Qed.

(** ** Counted loops *)

Lemma execute_log (moves : string) (w : world) :
  this_solution (execute moves w).2 = this_solution w ++ tokens moves
  /\ this_cube (execute moves w).2 = this_cube w.
Proof. done. Qed.

Lemma executed_log (moves : string) (k : nat) (w : world) :
  this_solution (executed moves k w)
  = this_solution w ++ mjoin (replicate k (tokens moves))
  /\ this_cube (executed moves k w) = this_cube w.
Proof.
  induction k as [|k [IHlog IHcube]].
  - unfold executed. simpl. by rewrite app_nil_r.
  - change (executed moves (S k) w)
      with ((execute moves (executed moves k w)).2).
    destruct (execute_log moves (executed moves k w)) as [-> ->].
    rewrite IHlog, IHcube. split; [| done].
    rewrite <- app_assoc. f_equal.
    clear. induction k as [|k IH]; simpl; [by rewrite app_nil_r |].
    simpl in IH. by rewrite <- app_assoc, IH.
Qed.

Lemma executed_S (moves : string) (k : nat) (w : world) :
  executed moves k (execute moves w).2 = executed moves (S k) w.
Proof.
  unfold executed. symmetry.
  exact (Nat.iter_succ_r k (fun w' : world => (execute moves w').2) w).
Qed.

(** A counted search loop with [execute(moves)] as its body stops after
    at most [n] of them. *)
Lemma forBreak_executes (n : nat) (cond : CubeState -> bool) (moves : string)
    (w : world) :
  exists b k, k <= n
    /\ forBreak n cond (ret tt) (execute moves) w = (Done b, executed moves k w).
Proof.
  revert w. induction n as [|n IH]; intros w.
  - by exists false, 0.
  - cbn [forBreak]. unfold ifM. destruct (cond (cur w)).
    + exists true, 0. split; [lia | done].
    + rewrite bind_execute.
      destruct (IH (execute moves w).2) as (b & k & Hk & ->).
      exists b, (S k). split; [lia |]. by rewrite executed_S.
Qed.

(** X22.  [solveWhiteCross] always returns.  For each of the four colours
    it logs at most twenty [U] and then one [F2], so between 4 and 84
    tokens in all, each of them [U] or [F2], the last one [F2]. *)
Theorem solveWhiteCross_returns (w : world) :
  exists ext,
    solveWhiteCross w
    = (Done tt, (solveWhiteCross w).2)
    /\ this_solution (solveWhiteCross w).2 = this_solution w ++ ext
    /\ 4 <= length ext <= 84
    /\ Forall (fun m => m = "U" \/ m = "F2") ext
    /\ last ext = Some "F2".
Proof.
  assert (Hround : forall color w0,
    exists k, k <= 20
      /\ (crossSearch color ;; execute "F2") w0
         = (Done tt, (execute "F2" (executed "U" k w0)).2)).
  { intros color w0. unfold crossSearch.
    destruct (forBreak_executes 20 (edgeFound color) "U" w0) as (b & k & Hk & Hb).
    exists k. split; [done |]. unfold bind at 1. by rewrite Hb. }
  assert (Hlog : forall k w0,
    this_solution (execute "F2" (executed "U" k w0)).2
    = this_solution w0 ++ replicate k "U" ++ ["F2"]).
  { intros k w0. destruct (execute_log "F2" (executed "U" k w0)) as [-> _].
    destruct (executed_log "U" k w0) as [-> _].
    change (tokens "F2") with ["F2"].
    rewrite <- app_assoc. do 2 f_equal.
    clear. induction k as [|k IH]; [done |]. simpl. by rewrite <- IH. }
  unfold solveWhiteCross, centers. cbn [forEach fst].
  destruct (Hround (JString "R") w) as (k1 & Hk1 & H1).
  set (w1 := (execute "F2" (executed "U" k1 w)).2) in *.
  destruct (Hround (JString "B") w1) as (k2 & Hk2 & H2).
  set (w2 := (execute "F2" (executed "U" k2 w1)).2) in *.
  destruct (Hround (JString "O") w2) as (k3 & Hk3 & H3).
  set (w3 := (execute "F2" (executed "U" k3 w2)).2) in *.
  destruct (Hround (JString "G") w3) as (k4 & Hk4 & H4).
  set (w4 := (execute "F2" (executed "U" k4 w3)).2) in *.
  assert (Hall :
    ((crossSearch (JString "R");; execute "F2");;
     (crossSearch (JString "B");; execute "F2");;
     (crossSearch (JString "O");; execute "F2");;
     (crossSearch (JString "G");; execute "F2");; ret tt) w = (Done tt, w4)).
  { unfold bind at 1. rewrite H1. unfold bind at 1. rewrite H2.
    unfold bind at 1. rewrite H3. unfold bind at 1. by rewrite H4. }
  rewrite Hall. cbn [snd].
  exists ((replicate k1 "U" ++ ["F2"]) ++ (replicate k2 "U" ++ ["F2"])
          ++ (replicate k3 "U" ++ ["F2"]) ++ (replicate k4 "U" ++ ["F2"])).
  split; [done |]. split; [| split; [| split]].
  - unfold w4, w3, w2, w1. rewrite !Hlog. by rewrite <- !app_assoc.
  - rewrite !length_app, !length_replicate. simpl. lia.
  - repeat (apply Forall_app; split);
      try (apply Forall_replicate; by left); repeat constructor; by right.
  - rewrite !app_assoc. apply last_snoc.
Qed.

(** X23.  [areCornersPositioned] leaves the cube as it is and logs one [y]
    for each corner it accepts: four of them when it answers [true], fewer
    when it answers [false]. *)
Theorem areCornersPositioned_logs_y (w : world) :
  exists b k,
    areCornersPositioned w = (Done b, executed "y" k w)
    /\ cur (executed "y" k w) = cur w
    /\ this_solution (executed "y" k w) = this_solution w ++ replicate k "y"
    /\ (if b then k = 4 else k < 4).
Proof.
  assert (Hcheck : forall n w0,
    exists b k, cornersCheck n w0 = (Done b, executed "y" k w0)
                /\ (if b then k = n else k < n)).
  { induction n as [|n IH]; intros w0.
    - by exists true, 0.
    - cbn [cornersCheck]. unfold ifM.
      destruct (cornerMatches (cur w0)).
      + rewrite bind_execute.
        destruct (IH (execute "y" w0).2) as (b & k & -> & Hk).
        exists b, (S k). rewrite executed_S. split; [done |].
        destruct b; lia.
      + exists false, 0. split; [done | lia]. }
  destruct (Hcheck 4 w) as (b & k & Hb & Hk).
  exists b, k. split; [exact Hb |]. split; [| split; [| done]].
  - clear. induction k as [|k IH]; [done |].
    change (executed "y" (S k) w) with ((execute "y" (executed "y" k w)).2).
    by rewrite cur_execute_y.
  - destruct (executed_log "y" k w) as [-> _]. f_equal.
    clear. induction k as [|k IH]; [done |]. simpl. by rewrite <- IH.
Qed.

(** ** The simplifier on any list of strings *)

Lemma simplifyPass_shorter (l : list string) :
  length (simplifyPass l).1 <= length l.
Proof.
  induction l as [l IH] using (induction_ltof1 _ (@length string)).
  unfold ltof in IH.
  destruct l as [|m1 [|m2 rest2]]; [done .. |].
  rewrite simplifyPass_step. case_bool_decide; simpl.
  - specialize (IH rest2 ltac:(simpl; lia)).
    rewrite length_app.
    assert (length (merged m1 m2) <= 1).
    { unfold merged.
      destruct ((turnsOf m1 + turnsOf m2) mod 4) as [|[|[|?]]]; simpl; lia. }
    lia.
  - specialize (IH (m2 :: rest2) ltac:(simpl; lia)). simpl in IH. lia.
Qed.

(** A pass reports no change exactly on a settled list, and then gives
    the list back. *)
Lemma simplifyPass_settled (l : list string) :
  ((simplifyPass l).2 = false <-> settled l = true)
  /\ ((simplifyPass l).2 = false -> (simplifyPass l).1 = l).
Proof.
  induction l as [l IH] using (induction_ltof1 _ (@length string)).
  unfold ltof in IH.
  destruct l as [|m1 [|m2 rest2]]; [done .. |].
  rewrite simplifyPass_step.
  change (settled (m1 :: m2 :: rest2))
    with (negb (bool_decide (firstChar m1 = firstChar m2))
          && settled (m2 :: rest2)).
  destruct (IH (m2 :: rest2) ltac:(simpl; lia)) as [Hiff Hsame].
  case_bool_decide; cbn [fst snd negb andb].
  - split; [split |]; done.
  - split; [done |]. intros Hch. by rewrite Hsame.
Qed.

Lemma settled_short (l : list string) : length l < 2 -> settled l = true.
Proof. destruct l as [|m1 [|m2 rest]]; simpl; (done || lia). Qed.

Lemma simplifyLoop_spec (moves : list string) :
  settled (simplifyLoop moves) = true
  /\ length (simplifyLoop moves) <= length moves
  /\ (settled moves = true -> simplifyLoop moves = moves).
Proof.
  funelim (simplifyLoop moves).
  - split; [| done]. apply settled_short.
    match goal with H : bool_decide _ = true |- _ =>
      by apply bool_decide_eq_true in H end.
  - destruct H as (Hs & Hl & _).
    pose proof (simplifyPass_shorter simplified) as Hle.
    rewrite Hpass in Hle. simpl in Hle.
    split; [done |]. split; [lia |].
    intros Hset. apply simplifyPass_settled in Hset.
    by rewrite Hpass in Hset.
  - match goal with
    | Heq : simplifyPass simplified = _ |- _ =>
        destruct (simplifyPass_settled simplified) as [Hiff Hsame];
        pose proof (simplifyPass_shorter simplified) as Hle;
        rewrite Heq in Hiff, Hsame, Hle; simpl in Hiff, Hsame, Hle
    end.
    rewrite Hsame by done. split; [by apply Hiff |]. done.
Qed.

(** X24.  Whatever strings it is given, [simplifyMoves] returns a list in
    which no two neighbours start with the same character, and one that is
    not longer than its input. *)
Theorem simplifyMoves_settles (moves : list string) :
  settled (simplifyMoves moves) = true
  /\ length (simplifyMoves moves) <= length moves.
Proof.
  unfold simplifyMoves.
  destruct (simplifyLoop_spec moves) as (Hs & Hl & _). by split.
Qed.

(** X25.  [simplifyMoves] returns a list without such neighbours as it
    is, so simplifying twice gives what simplifying once gives. *)
Theorem simplifyMoves_idempotent (moves : list string) :
  (settled moves = true -> simplifyMoves moves = moves)
  /\ simplifyMoves (simplifyMoves moves) = simplifyMoves moves.
Proof.
  unfold simplifyMoves. split.
  - apply simplifyLoop_spec.
  - apply simplifyLoop_spec, simplifyLoop_spec.
Qed.

(** ** Loops on a move of finite order *)

Lemma cur_executed (moves : string) (k : nat) (w : world) :
  cubeAllocated w ->
  cur (executed moves k w) = Nat.iter k (executeAlgorithm moves) (cur w)
  /\ cubeAllocated (executed moves k w).
Proof.
  intros Hw. induction k as [|k [IHcur IHw]]; [done |].
  change (executed moves (S k) w) with ((execute moves (executed moves k w)).2).
  destruct (cur_execute_allocated moves _ IHw) as [-> Hw'].
  by rewrite IHcur.
Qed.

Lemma while_unfold (fuel : nat) (p : CubeState -> bool) (moves : string)
    (w : world) :
  while fuel (test p) (execute moves) w
  = if p (cur w) then
      match fuel with
      | 0 => (OutOfFuel, w)
      | S n => while n (test p) (execute moves) (execute moves w).2
      end
    else (Done tt, w).
Proof. destruct fuel; cbn [while]; unfold bind, test; by destruct (p (cur w)). Qed.

(** What a [while (cond) execute(moves)] loop does on fuel: it stops at the
    first round at which the condition fails, or the condition held all the
    way. *)
Lemma while_execute (fuel : nat) (p : CubeState -> bool) (moves : string)
    (w : world) :
  (exists k, k <= fuel
     /\ p (cur (executed moves k w)) = false
     /\ (forall j, j < k -> p (cur (executed moves j w)) = true)
     /\ while fuel (test p) (execute moves) w = (Done tt, executed moves k w))
  \/ ((forall j, j <= fuel -> p (cur (executed moves j w)) = true)
      /\ (while fuel (test p) (execute moves) w).1 = OutOfFuel).
Proof.
  revert w. induction fuel as [|n IH]; intros w;
    rewrite while_unfold; destruct (p (cur w)) eqn:Hp.
  - right. split; [| done]. intros j Hj. by replace j with 0 by lia.
  - left. exists 0. split; [lia |]. split; [done |].
    split; [intros; lia | done].
  - destruct (IH (execute moves w).2)
      as [(k & Hk & Hstop & Hbefore & Hrun)|[Hall Hstuck]].
    + left. exists (S k). rewrite executed_S in Hstop, Hrun.
      split; [lia |]. split; [done |]. split; [| exact Hrun].
      intros [|j] Hj; [done |].
      rewrite <- executed_S. apply Hbefore. lia.
    + right. split; [| exact Hstuck].
      intros [|j] Hj; [done |].
      rewrite <- executed_S. apply Hall. lia.
  - left. exists 0. split; [lia |]. split; [done |].
    split; [intros; lia | done].
Qed.

Section Periodic.
Variable moves : string.
Variable period : nat.
Hypothesis period_pos : 0 < period.
Hypothesis periodic :
  forall s, nine s -> Nat.iter period (executeAlgorithm moves) s = s.

Lemma iter_periodic (j : nat) (s : CubeState) :
  nine s ->
  Nat.iter j (executeAlgorithm moves) s
  = Nat.iter (j mod period) (executeAlgorithm moves) s.
Proof.
  intros H.
  assert (Hq : forall q, Nat.iter (q * period) (executeAlgorithm moves) s = s).
  { induction q as [|q IH]; [done |].
    change (S q * period) with (period + q * period).
    by rewrite Nat.iter_add, IH, periodic. }
  transitivity (Nat.iter (j mod period + j / period * period)
                  (executeAlgorithm moves) s).
  - f_equal. pose proof (Nat.div_mod_eq j period). lia.
  - by rewrite Nat.iter_add, Hq.
Qed.

Lemma first_failure (q : nat -> bool) (n : nat) :
  (forall k, k < n -> q k = true)
  \/ exists k, k < n /\ q k = false /\ forall j, j < k -> q j = true.
Proof.
  induction n as [|n [Hall|(k & Hk & Hq & Hfirst)]].
  - left. intros k Hk. lia.
  - destruct (q n) eqn:Hn.
    + left. intros k Hk. destruct (decide (k = n)) as [->|]; [done |].
      apply Hall. lia.
    + right. exists n. split; [lia |]. split; [done |].
      intros j Hj. by apply Hall.
  - right. exists k. split; [lia |]. by split.
Qed.

(** The loop [while (cond) execute(moves)] stops within one period, at the
    same round for every fuel that reaches it, or it never stops. *)
Lemma periodic_loop (p : CubeState -> bool) (w : world) :
  nine (cur w) -> cubeAllocated w ->
  (exists k, k < period
     /\ forall fuel, k <= fuel ->
          while fuel (test p) (execute moves) w
          = (Done tt, executed moves k w))
  \/ (forall fuel, (while fuel (test p) (execute moves) w).1 = OutOfFuel).
Proof.
  intros Hnine Hw.
  set (q := fun j => p (cur (executed moves j w))).
  assert (Hper : forall j, q j = q (j mod period)).
  { intros j. unfold q.
    destruct (cur_executed moves j w Hw) as [-> _].
    destruct (cur_executed moves (j mod period) w Hw) as [-> _].
    by rewrite iter_periodic. }
  destruct (first_failure q period) as [Hall|(k & Hk & Hq & Hfirst)].
  - right. intros fuel.
    destruct (while_execute fuel p moves w)
      as [(k & _ & Hstop & _)|[_ Hstuck]]; [| done].
    fold (q k) in Hstop. rewrite Hper, Hall in Hstop; [done |].
    by apply Nat.mod_upper_bound, Nat.neq_0_lt_0.
  - left. exists k. split; [done |]. intros fuel Hfuel.
    destruct (while_execute fuel p moves w)
      as [(k' & Hk' & Hstop & Hbefore & Hrun)|[Hall _]].
    + assert (k' = k) as ->; [| done].
      destruct (Nat.lt_trichotomy k' k) as [Hlt|[Heq|Hgt]]; [| done |].
      * specialize (Hfirst k' Hlt). unfold q in Hfirst. congruence.
      * specialize (Hbefore k Hgt). unfold q in Hq. congruence.
    + specialize (Hall k Hfuel). unfold q in Hq. congruence.
Qed.
End Periodic.

Lemma U_order4 (s : CubeState) :
  nine s -> Nat.iter 4 (executeAlgorithm "U") s = s.
Proof. intros H. exact (performMove_order4 "U" s H). Qed.

Lemma insertion_order6 (s : CubeState) :
  nine s -> Nat.iter 6 (executeAlgorithm "R' D' R D") s = s.
Proof. intros H. nine_cells s H. vm_compute. reflexivity. Qed.

(** X26.  [alignTopFace] on a cube of nine facelets a face: either it
    returns after at most three [U], the same number whatever the fuel, or
    it never returns. *)
Theorem alignTopFace_three_or_never (w : world) :
  nine (cur w) -> cubeAllocated w ->
  (exists k, k < 4
     /\ forall fuel, k <= fuel ->
          alignTopFace fuel w = (Done tt, executed "U" k w))
  \/ (forall fuel, (alignTopFace fuel w).1 = OutOfFuel).
Proof.
  intros Hnine Hw. unfold alignTopFace.
  apply (periodic_loop "U" 4); (done || lia || apply U_order4).
Qed.

(** X27.  The insertion loop of [solveWhiteCorners],
    [while (down[2] !== white || front[8] !== frontColor)
       execute("R' D' R D")]: the algorithm has order six, so the loop
    stops after at most five rounds or never. *)
Theorem corner_insertion_five_or_never (frontColor : jsval) (w : world) :
  nine (cur w) -> cubeAllocated w ->
  (exists k, k < 6
     /\ forall fuel, k <= fuel ->
          while fuel (test (cornerNotInserted frontColor))
            (execute "R' D' R D") w
          = (Done tt, executed "R' D' R D" k w))
  \/ (forall fuel,
        (while fuel (test (cornerNotInserted frontColor))
           (execute "R' D' R D") w).1 = OutOfFuel).
Proof.
  intros Hnine Hw.
  apply (periodic_loop "R' D' R D" 6); (done || lia || apply insertion_order6).
Qed.

(** ** The further properties on concrete inputs *)

Lemma rotateFace_only_that_face_witness :
  front <> right
  /\ faceOf (rotateFace right true cubeF2) front = faceOf cubeF2 front.
Proof.
  assert (H : front <> right) by discriminate.
  split; [exact H |].
  exact (proj1 (rotateFace_only_that_face right front true cubeF2) H).
Defined.

Lemma validateCubeState_accepts_witness :
  validateCubeState (fun _ => false) cubeF2 = true
  /\ nine cubeF2
  /\ Forall (fun c => countColor (JString c) cubeF2 = 9) colourCodes.
Proof.
  assert (H : validateCubeState (fun _ => false) cubeF2 = true) by reflexivity.
  split; [exact H |].
  exact (proj1 (validateCubeState_accepts (fun _ => false) cubeF2) H).
Defined.

Lemma stickerClick_keeps_limits_witness :
  let a := {| cubeState := solvedState; stateHistory := [];
              historyIndex := -1 |} in
  countColor (JString "W") (cubeState a) <= 9
  /\ countColor (JString "W")
       (cubeState (stickerClick front 0 (JString "W") a)) <= 9.
Proof.
  intros a.
  assert (H : countColor (JString "W") (cubeState a) <= 9)
    by (vm_compute; lia).
  split; [exact H |].
  exact (proj2 (stickerClick_keeps_limits front 0 (JString "W") a up "W") H).
Defined.

Lemma stickerClick_outcome_witness :
  let a := {| cubeState := solvedState; stateHistory := [];
              historyIndex := -1 |} in
  stickerClick front 4 (JString "W") a = a
  /\ stickerClick front 0 (JString "W") a = a.
Proof.
  intros a. split.
  - apply (proj1 (stickerClick_outcome front 4 (JString "W") a)). by left.
  - apply (proj1 (stickerClick_outcome front 0 (JString "W") a)).
    right. right. split; [vm_compute; lia | discriminate].
Defined.

Lemma simplifyMoves_idempotent_witness :
  settled ["R"; "U"; "R'"] = true
  /\ simplifyMoves ["R"; "U"; "R'"] = ["R"; "U"; "R'"].
Proof.
  assert (H : settled ["R"; "U"; "R'"] = true) by reflexivity.
  split; [exact H |].
  exact (proj1 (simplifyMoves_idempotent ["R"; "U"; "R'"]) H).
Defined.

Lemma alignTopFace_three_or_never_witness :
  let w := newCubeSolverJS [cubeF2] {| state := 0 |} in
  nine (cur w) /\ cubeAllocated w
  /\ ((exists k, k < 4
         /\ forall fuel, k <= fuel ->
              alignTopFace fuel w = (Done tt, executed "U" k w))
      \/ (forall fuel, (alignTopFace fuel w).1 = OutOfFuel)).
Proof.
  intros w.
  assert (Hnine : nine (cur w)) by repeat constructor.
  assert (Hw : cubeAllocated w) by (unfold cubeAllocated; simpl; lia).
  split; [exact Hnine |]. split; [exact Hw |].
  exact (alignTopFace_three_or_never w Hnine Hw).
Defined.

Lemma corner_insertion_five_or_never_witness :
  let w := newCubeSolverJS [cubeF2] {| state := 0 |} in
  nine (cur w) /\ cubeAllocated w
  /\ ((exists k, k < 6
         /\ forall fuel, k <= fuel ->
              while fuel (test (cornerNotInserted (JString "R")))
                (execute "R' D' R D") w
              = (Done tt, executed "R' D' R D" k w))
      \/ (forall fuel,
            (while fuel (test (cornerNotInserted (JString "R")))
               (execute "R' D' R D") w).1 = OutOfFuel)).
Proof.
  intros w.
  assert (Hnine : nine (cur w)) by repeat constructor.
  assert (Hw : cubeAllocated w) by (unfold cubeAllocated; simpl; lia).
  split; [exact Hnine |]. split; [exact Hw |].
  exact (corner_insertion_five_or_never (JString "R") w Hnine Hw).
Defined.
